(** * Decode scheduler: a shallow embedding of
      [max/serve/scheduler/decode_scheduler.py]

    The scheduler is a single-threaded control loop over a mutable object.
    It is embedded with explicit state passing: every method of
    [DecodeScheduler] becomes a function from the scheduler state to a
    result in a small exception monad.  The collaborators that live outside
    the file (the paged KV cache manager, the token generator, the request
    context, the transport under the sockets) are an interface,
    [Collaborators]; the calls made to the cache manager, to the generator
    and to the process control are appended to a call log carried by the
    state, and the messages on the sockets are fields of the state. *)

From stdpp Require Import base option list list_numbers gmap strings.
From Stdlib Require Import ZArith Lia.

Local Open Scope Z_scope.

(** ** Exceptions

    [RuntimeError], [KeyError], [IndexError] and [QueueEmpty] are the
    Python exceptions of those names, [ZMQError] is [zmq.ZMQError].
    [Unassigned] is raised by reading [cache_seq_id] of a context that
    holds no slot.  [Diverged] is not an exception of the program: a loop
    run with too little fuel ends in it. *)

Inductive Exn : Type :=
  | RuntimeError (msg : string)
  | KeyError (key : string)
  | QueueEmpty
  | ZMQError
  | IndexError
  | Unassigned
  | Diverged.

Inductive Res (A : Type) : Type :=
  | Ok (a : A)
  | Raise (e : Exn).
Arguments Ok {A} a.
Arguments Raise {A} e.

#[global] Instance Res_ret : MRet Res := λ A a, Ok a.
#[global] Instance Res_bind : MBind Res := λ A B f m,
  match m with
  | Ok a => f a
  | Raise e => Raise e
  end.

Definition is_ok {A} (r : Res A) : bool :=
  match r with Ok _ => true | Raise _ => false end.

(** ** Insertion-ordered dictionaries

    [OrderedDict] and [dict] are association lists in insertion order.
    Assigning to a key that is present replaces the value in place;
    assigning to a new key appends at the tail. *)

Section OrderedDict.
Context {V : Type}.

Fixpoint od_get (d : list (string * V)) (k : string) : option V :=
  match d with
  | [] => None
  | (k', v) :: d' => if decide (k' = k) then Some v else od_get d' k
  end.

Fixpoint od_set (d : list (string * V)) (k : string) (v : V)
  : list (string * V) :=
  match d with
  | [] => [(k, v)]
  | (k', v') :: d' =>
      if decide (k' = k) then (k', v) :: d' else (k', v') :: od_set d' k v
  end.

Fixpoint od_del (d : list (string * V)) (k : string) : list (string * V) :=
  match d with
  | [] => []
  | (k', v) :: d' => if decide (k' = k) then d' else (k', v) :: od_del d' k
  end.

Definition od_keys (d : list (string * V)) : list string := d.*1.
Definition od_values (d : list (string * V)) : list V := d.*2.
End OrderedDict.

(** ** Data model *)

Record DecodeSchedulerConfig : Type := {
  max_batch_size_tg : Z;
  max_forward_steps_tg : Z;
}.

(** The carriers of the collaborators: [Gen] is the opaque generation state
    of a request, [Tok] a streamed token, [World] the joint state of the
    paged cache manager, of the token generator and of the transport. *)
Class Carriers : Type := {
  Gen : Type;
  Tok : Type;
  World : Type;
}.

(** Modelled from the spec: the request context class [InputContext] of
    [max.pipelines.core] is not part of the file.  A context carries a
    cache-slot assignment that is unset until claimed, an optional
    remaining-length budget and an opaque generation state. *)
Record InputContext `{Carriers} : Type := {
  cache_seq_id : option Z;
  max_length : option Z;
  gen : Gen;
}.

Definition is_assigned_to_cache `{Carriers} (c : InputContext) : bool :=
  bool_decide (is_Some (cache_seq_id c)).

Definition assign_to_cache `{Carriers} (c : InputContext) (slot : Z)
  : InputContext :=
  {| cache_seq_id := Some slot; max_length := max_length c; gen := gen c |}.

Record TextGenerationResponse `{Carriers} : Type := {
  tokens : list Tok;
  is_done : bool;
}.

(** A value of a response frame: a token or the stop sentinel. *)
Inductive TextResponse `{Carriers} : Type :=
  | Token (t : Tok)
  | STOP_STREAM.

Abbreviation Batch := (list (string * InputContext)).
Abbreviation Responses := (list (string * TextGenerationResponse)).
Abbreviation Frame := (gmap string TextResponse).

(** The operations of the collaborators.  [release] and [next_token]
    receive context objects and may mutate them, so they return the
    contexts they leave behind.

    [request_socket_fault] and [prefill_socket_fault] are the transport
    under the two sockets of the forwarding loop: they tell whether the
    coming [get_nowait] on the request socket, and the coming [put_nowait]
    of a given message on the prefill socket, fails with the
    [zmq.ZMQError] that the docstrings of [pull_from_request_socket] and
    [push_to_prefill_socket] document.  The forwarding loop is the one
    place where the file catches such a failure and goes on; a failure
    of the decode or the response socket is caught nowhere and ends the
    run, and is left out. *)
Class Collaborators `{Carriers} : Type := {
  compute_num_available_steps : InputContext → Z → Z;
  reset : InputContext → InputContext;
  max_seq_len : World → Z;
  external_claim : World → list Z → World;
  prefetch : World → InputContext → Z → bool * World;
  release : World → InputContext → World * InputContext;
  next_token : World → Batch → Z → World * Batch * Responses;
  request_socket_fault : World → bool * World;
  prefill_socket_fault : World → string → InputContext → bool * World;
}.

(** Calls made to the cache manager, to the generator and to the process
    control, in program order. *)
Inductive Call `{Carriers} : Type :=
  | CallExternalClaim (ids : list Z)
  | CallPrefetch (request_id : string) (num_steps : Z) (ok : bool)
  | CallRelease (request_id : string) (c : InputContext)
  | CallNextToken (num_steps : Z)
  | CallIsCanceled (canceled : bool)
  | CallBeat.

Record DecodeScheduler `{Carriers} : Type := {
  scheduler_config : DecodeSchedulerConfig;
  world : World;
  request_pull_socket : Batch;
  response_push_socket : list (list Frame);
  decode_pull_socket : Batch;
  prefill_push_socket : Batch;
  preempted_decode : Batch;
  active_batch : Batch;
  available_cache_indices : gset Z;
  calls : list Call;
}.

(** ** The scheduler *)

Section Scheduler.
Context `{Collab : Collaborators}.

(** Field assignments. *)
Definition with_world (w : World) (s : DecodeScheduler) : DecodeScheduler :=
  {| scheduler_config := scheduler_config s; world := w;
     request_pull_socket := request_pull_socket s;
     response_push_socket := response_push_socket s;
     decode_pull_socket := decode_pull_socket s;
     prefill_push_socket := prefill_push_socket s;
     preempted_decode := preempted_decode s;
     active_batch := active_batch s;
     available_cache_indices := available_cache_indices s;
     calls := calls s |}.

Definition with_request_pull_socket (q : Batch) (s : DecodeScheduler)
  : DecodeScheduler :=
  {| scheduler_config := scheduler_config s; world := world s;
     request_pull_socket := q;
     response_push_socket := response_push_socket s;
     decode_pull_socket := decode_pull_socket s;
     prefill_push_socket := prefill_push_socket s;
     preempted_decode := preempted_decode s;
     active_batch := active_batch s;
     available_cache_indices := available_cache_indices s;
     calls := calls s |}.

Definition with_response_push_socket (q : list (list Frame))
  (s : DecodeScheduler) : DecodeScheduler :=
  {| scheduler_config := scheduler_config s; world := world s;
     request_pull_socket := request_pull_socket s;
     response_push_socket := q;
     decode_pull_socket := decode_pull_socket s;
     prefill_push_socket := prefill_push_socket s;
     preempted_decode := preempted_decode s;
     active_batch := active_batch s;
     available_cache_indices := available_cache_indices s;
     calls := calls s |}.

Definition with_decode_pull_socket (q : Batch) (s : DecodeScheduler)
  : DecodeScheduler :=
  {| scheduler_config := scheduler_config s; world := world s;
     request_pull_socket := request_pull_socket s;
     response_push_socket := response_push_socket s;
     decode_pull_socket := q;
     prefill_push_socket := prefill_push_socket s;
     preempted_decode := preempted_decode s;
     active_batch := active_batch s;
     available_cache_indices := available_cache_indices s;
     calls := calls s |}.

Definition with_prefill_push_socket (q : Batch) (s : DecodeScheduler)
  : DecodeScheduler :=
  {| scheduler_config := scheduler_config s; world := world s;
     request_pull_socket := request_pull_socket s;
     response_push_socket := response_push_socket s;
     decode_pull_socket := decode_pull_socket s;
     prefill_push_socket := q;
     preempted_decode := preempted_decode s;
     active_batch := active_batch s;
     available_cache_indices := available_cache_indices s;
     calls := calls s |}.

Definition with_preempted_decode (q : Batch) (s : DecodeScheduler)
  : DecodeScheduler :=
  {| scheduler_config := scheduler_config s; world := world s;
     request_pull_socket := request_pull_socket s;
     response_push_socket := response_push_socket s;
     decode_pull_socket := decode_pull_socket s;
     prefill_push_socket := prefill_push_socket s;
     preempted_decode := q;
     active_batch := active_batch s;
     available_cache_indices := available_cache_indices s;
     calls := calls s |}.

Definition with_active_batch (b : Batch) (s : DecodeScheduler)
  : DecodeScheduler :=
  {| scheduler_config := scheduler_config s; world := world s;
     request_pull_socket := request_pull_socket s;
     response_push_socket := response_push_socket s;
     decode_pull_socket := decode_pull_socket s;
     prefill_push_socket := prefill_push_socket s;
     preempted_decode := preempted_decode s;
     active_batch := b;
     available_cache_indices := available_cache_indices s;
     calls := calls s |}.

Definition with_available_cache_indices (a : gset Z) (s : DecodeScheduler)
  : DecodeScheduler :=
  {| scheduler_config := scheduler_config s; world := world s;
     request_pull_socket := request_pull_socket s;
     response_push_socket := response_push_socket s;
     decode_pull_socket := decode_pull_socket s;
     prefill_push_socket := prefill_push_socket s;
     preempted_decode := preempted_decode s;
     active_batch := active_batch s;
     available_cache_indices := a;
     calls := calls s |}.

Definition record_call (c : Call) (s : DecodeScheduler) : DecodeScheduler :=
  {| scheduler_config := scheduler_config s; world := world s;
     request_pull_socket := request_pull_socket s;
     response_push_socket := response_push_socket s;
     decode_pull_socket := decode_pull_socket s;
     prefill_push_socket := prefill_push_socket s;
     preempted_decode := preempted_decode s;
     active_batch := active_batch s;
     available_cache_indices := available_cache_indices s;
     calls := calls s ++ [c] |}.

(** [__init__]: empty batch, every slot of [range(max_batch_size_tg)]
    free. *)
Definition init (cfg : DecodeSchedulerConfig) (w : World) : DecodeScheduler :=
  {| scheduler_config := cfg; world := w;
     request_pull_socket := [];
     response_push_socket := [];
     decode_pull_socket := [];
     prefill_push_socket := [];
     preempted_decode := [];
     active_batch := [];
     available_cache_indices := list_to_set (seqZ 0 (max_batch_size_tg cfg));
     calls := [] |}.

(** [set.pop()]: removes and returns some element; here the first of
    [elements]. *)
Definition set_pop (X : gset Z) : option (Z * gset Z) :=
  match elements X with
  | [] => None
  | x :: _ => Some (x, X ∖ {[x]})
  end.

(** [pull_from_request_socket]: [get_nowait] on the request socket.  It
    returns the oldest request, or raises [queue.Empty] when there is
    none, or [zmq.ZMQError] when the transport fails.  The scheduler it
    leaves comes with the result: an exception does not undo what
    happened before it. *)
Definition pull_from_request_socket (s : DecodeScheduler)
  : DecodeScheduler * Res (string * InputContext) :=
  let '(fault, w) := request_socket_fault (world s) in
  let s1 := with_world w s in
  if fault then (s1, Raise ZMQError)
  else
    match request_pull_socket s1 with
    | r :: q => (with_request_pull_socket q s1, Ok r)
    | [] => (s1, Raise QueueEmpty)
    end.

(** Pulls a request for decode, checking the preempted requests first;
    [queue.Empty] when neither source has one. *)
Definition pull_from_decode_socket (s : DecodeScheduler)
  : Res (string * InputContext * DecodeScheduler) :=
  match preempted_decode s with
  | r :: q => Ok (r, with_preempted_decode q s)
  | [] =>
      match decode_pull_socket s with
      | r :: q => Ok (r, with_decode_pull_socket q s)
      | [] => Raise QueueEmpty
      end
  end.

(** [push_to_prefill_socket]: [put_nowait] on the prefill socket; the
    message is sent, or [zmq.ZMQError] is raised and nothing is sent. *)
Definition push_to_prefill_socket (request_id : string)
  (data : InputContext) (s : DecodeScheduler)
  : DecodeScheduler * Res unit :=
  let '(fault, w) := prefill_socket_fault (world s) request_id data in
  let s1 := with_world w s in
  if fault then (s1, Raise ZMQError)
  else
    (with_prefill_push_socket
       (prefill_push_socket s1 ++ [(request_id, data)]) s1, Ok ()).

(** The loop of [reserve_memory_and_send_to_prefill]: [while True], pull,
    push, and [break] on any exception, whether raised by the pull or by
    the push.  Every iteration that stays in the loop takes a request
    off the request socket, so [fuel] bounds the number of iterations. *)
Fixpoint forward_loop (fuel : nat) (s : DecodeScheduler)
  : Res DecodeScheduler :=
  match pull_from_request_socket s with
  | (s1, Raise _) => Ok s1
  | (s1, Ok (new_request_id, new_request_data)) =>
      match push_to_prefill_socket new_request_id new_request_data s1 with
      | (s2, Raise _) => Ok s2
      | (s2, Ok _) =>
          match fuel with
          | O => Raise Diverged
          | S fuel' => forward_loop fuel' s2
          end
      end
  end.

(** [reserve_memory_and_send_to_prefill] raises nothing; the loop is run
    with fuel for every request on the socket, which is always enough
    (lemma [forward_loop_spec]). *)
Definition reserve_memory_and_send_to_prefill (s : DecodeScheduler)
  : DecodeScheduler :=
  match forward_loop (length (request_pull_socket s)) s with
  | Ok s' => s'
  | Raise _ => s
  end.

(** Frees the slot of the request, has the generator release it, resets
    it and puts it on the preempted queue. *)
Definition return_to_decode_queue (request_id : string) (data : InputContext)
  (s : DecodeScheduler) : Res DecodeScheduler :=
  match cache_seq_id data with
  | None => Raise Unassigned
  | Some slot =>
      let s1 :=
        with_available_cache_indices ({[slot]} ∪ available_cache_indices s) s in
      let '(w, data1) := release (world s1) data in
      let s2 := record_call (CallRelease request_id data) (with_world w s1) in
      let data2 := reset data1 in
      Ok (with_preempted_decode (preempted_decode s2 ++ [(request_id, data2)]) s2)
  end.

(** The admission loop of [update_batch], [while
    self.available_cache_indices].  Every iteration that does not leave
    the loop consumes one queued request, so [fuel] bounds the number of
    iterations; [Diverged] is the result when it runs out. *)
Fixpoint admission_loop (fuel : nat) (s : DecodeScheduler)
  : Res DecodeScheduler :=
  if decide (available_cache_indices s = ∅) then Ok s
  else
    match fuel with
    | O => Raise Diverged
    | S fuel' =>
        match pull_from_decode_socket s with
        | Raise QueueEmpty => Ok s
        | Raise e => Raise e
        | Ok (request_id, context, s1) =>
            if is_assigned_to_cache context then
              admission_loop fuel'
                (with_active_batch
                   (od_set (active_batch s1) request_id context) s1)
            else
              match set_pop (available_cache_indices s1) with
              | None => Raise (KeyError "pop from an empty set")
              | Some (slot, rest) =>
                  let context1 := assign_to_cache context slot in
                  let s2 := with_available_cache_indices rest s1 in
                  let s3 :=
                    record_call (CallExternalClaim [slot])
                      (with_world (external_claim (world s2) [slot]) s2) in
                  admission_loop fuel'
                    (with_active_batch
                       (od_set (active_batch s3) request_id context1) s3)
              end
        end
    end.

(** One iteration of the reservation loop of [update_batch], entered with
    the working list [request_id :: candidate_requests].  The result is
    the next working list and state, or [inr] for [break]. *)
Definition reserve_step (request_id : string)
  (candidate_requests : list string) (s : DecodeScheduler)
  : Res (list string * DecodeScheduler + DecodeScheduler) :=
  match od_get (active_batch s) request_id with
  | None => Raise (KeyError request_id)
  | Some context =>
      let num_available_steps :=
        compute_num_available_steps context (max_seq_len (world s)) in
      let num_steps :=
        if max_forward_steps_tg (scheduler_config s) <? num_available_steps
        then max_forward_steps_tg (scheduler_config s)
        else num_available_steps in
      let '(ok, w) := prefetch (world s) context num_steps in
      let s1 :=
        record_call (CallPrefetch request_id num_steps ok) (with_world w s) in
      if ok then Ok (inl (candidate_requests, s1))
      else
        match last candidate_requests with
        | None =>
            s2 ← return_to_decode_queue request_id context s1;
            Ok (inr (with_active_batch (od_del (active_batch s2) request_id) s2))
        | Some newest_request_id =>
            match od_get (active_batch s1) newest_request_id with
            | None => Raise (KeyError newest_request_id)
            | Some newest_context =>
                let s2 :=
                  with_active_batch
                    (od_del (active_batch s1) newest_request_id) s1 in
                s3 ← return_to_decode_queue newest_request_id newest_context s2;
                Ok (inl (request_id :: removelast candidate_requests, s3))
            end
        end
  end.

(** The reservation loop, [while len(candidate_requests)].  Every
    iteration shortens the working list, so fuel equal to its length is
    enough. *)
Fixpoint reserve_loop (fuel : nat) (candidate_requests : list string)
  (s : DecodeScheduler) : Res DecodeScheduler :=
  match candidate_requests with
  | [] => Ok s
  | request_id :: rest =>
      match fuel with
      | O => Raise Diverged
      | S fuel' =>
          r ← reserve_step request_id rest s;
          match r with
          | inl (candidate_requests', s') =>
              reserve_loop fuel' candidate_requests' s'
          | inr s' => Ok s'
          end
      end
  end.

(** The reservation phase: the working list starts as the keys of the
    active batch. *)
Definition reserve_phase (s : DecodeScheduler) : Res DecodeScheduler :=
  reserve_loop (length (active_batch s)) (od_keys (active_batch s)) s.

(** The admission phase, with fuel for every queued request. *)
Definition admission_phase (s : DecodeScheduler) : Res DecodeScheduler :=
  admission_loop
    (S (length (preempted_decode s) + length (decode_pull_socket s))) s.

Definition update_batch (s : DecodeScheduler) : Res DecodeScheduler :=
  s1 ← admission_phase s;
  reserve_phase s1.

(** The loop of [calculate_batch_num_steps] over the contexts of the
    batch; [None] is the early [return] taken at a context without
    [max_length]. *)
Fixpoint batch_available_steps_loop (contexts : list InputContext)
  (batch_available_steps : Z) : option Z :=
  match contexts with
  | [] => Some batch_available_steps
  | data :: contexts' =>
      match max_length data with
      | None => None
      | Some bound =>
          let request_available_steps :=
            compute_num_available_steps data bound in
          batch_available_steps_loop contexts'
            (if request_available_steps >? batch_available_steps
             then request_available_steps else batch_available_steps)
      end
  end.

Definition calculate_batch_num_steps (s : DecodeScheduler) : Res Z :=
  match active_batch s with
  | [] =>
      Raise (RuntimeError
        "active_batch must contain at least one context to calculate num_steps")
  | _ =>
      match batch_available_steps_loop (od_values (active_batch s)) (-1) with
      | None => Ok (max_forward_steps_tg (scheduler_config s))
      | Some batch_available_steps =>
          if (batch_available_steps >? 0)
             && (batch_available_steps
                 <? max_forward_steps_tg (scheduler_config s))
          then Ok batch_available_steps
          else Ok (max_forward_steps_tg (scheduler_config s))
      end
  end.

(** [stream_responses[idx][request_id] = v]. *)
Definition frame_assign (stream_responses : list Frame) (idx : nat)
  (request_id : string) (v : TextResponse) : Res (list Frame) :=
  match stream_responses !! idx with
  | None => Raise IndexError
  | Some frame => Ok (<[idx := <[request_id := v]> frame]> stream_responses)
  end.

(** [for token_idx, text_response in enumerate(response.tokens)]. *)
Fixpoint assign_tokens (request_id : string) (token_idx : nat)
  (toks : list Tok) (stream_responses : list Frame) : Res (list Frame) :=
  match toks with
  | [] => Ok stream_responses
  | text_response :: toks' =>
      stream1 ←
        frame_assign stream_responses token_idx request_id (Token text_response);
      assign_tokens request_id (S token_idx) toks' stream1
  end.

(** The body of the loop over [responses.items()].  The inner [while]
    appends empty frames until the list is long enough. *)
Definition stream_one (stream_responses : list Frame) (request_id : string)
  (response : TextGenerationResponse) : Res (list Frame) :=
  let needed :=
    (length (tokens response) + (if is_done response then 1 else 0))%nat in
  let stream1 :=
    stream_responses ++ replicate (needed - length stream_responses)%nat ∅ in
  stream2 ← assign_tokens request_id 0 (tokens response) stream1;
  if is_done response
  then frame_assign stream2 (length (tokens response)) request_id STOP_STREAM
  else Ok stream2.

Fixpoint stream_loop (responses : Responses) (stream_responses : list Frame)
  : Res (list Frame) :=
  match responses with
  | [] => Ok stream_responses
  | (request_id, response) :: responses' =>
      stream1 ← stream_one stream_responses request_id response;
      stream_loop responses' stream1
  end.

Definition push_to_response_socket (responses : list Frame)
  (s : DecodeScheduler) : DecodeScheduler :=
  with_response_push_socket (response_push_socket s ++ [responses]) s.

(** [responses] is [None], or a dictionary in insertion order. *)
Definition stream_responses_to_frontend (responses : option Responses)
  (s : DecodeScheduler) : Res DecodeScheduler :=
  match responses with
  | None | Some [] => Ok s
  | Some r =>
      stream_responses ← stream_loop r [∅];
      Ok (push_to_response_socket stream_responses s)
  end.

(** The loop of [_handle_terminated_responses] over
    [responses.items()]. *)
Fixpoint handle_terminated_loop (responses : Responses) (s : DecodeScheduler)
  : Res DecodeScheduler :=
  match responses with
  | [] => Ok s
  | (request_id, response) :: responses' =>
      if is_done response then
        match od_get (active_batch s) request_id with
        | None => Raise (KeyError request_id)
        | Some context =>
            match cache_seq_id context with
            | None => Raise Unassigned
            | Some cache_id =>
                let '(w, _) := release (world s) context in
                let s1 :=
                  record_call (CallRelease request_id context)
                    (with_world w s) in
                let s2 :=
                  with_available_cache_indices
                    ({[cache_id]} ∪ available_cache_indices s1) s1 in
                handle_terminated_loop responses'
                  (with_active_batch (od_del (active_batch s2) request_id) s2)
            end
        end
      else handle_terminated_loop responses' s
  end.

Definition _handle_terminated_responses (responses : option Responses)
  (s : DecodeScheduler) : Res DecodeScheduler :=
  match responses with
  | None => Ok s
  | Some r => handle_terminated_loop r s
  end.

(** Runs the generator on the active batch, reclaims the terminated
    requests and streams the responses. *)
Definition schedule_batch (num_steps : Z) (s : DecodeScheduler)
  : Res DecodeScheduler :=
  let '(w, batch, responses) :=
    next_token (world s) (active_batch s) num_steps in
  let s1 :=
    record_call (CallNextToken num_steps)
      (with_active_batch batch (with_world w s)) in
  s2 ← _handle_terminated_responses (Some responses) s1;
  stream_responses_to_frontend (Some responses) s2.

(** One pass through the body of the [while] loop of [run], from
    [self.pc.beat()] on. *)
Definition cycle (s : DecodeScheduler) : Res DecodeScheduler :=
  let s0 := record_call CallBeat s in
  let s1 := reserve_memory_and_send_to_prefill s0 in
  s2 ← update_batch s1;
  match active_batch s2 with
  | [] => Ok s2
  | _ =>
      num_steps ← calculate_batch_num_steps s2;
      schedule_batch num_steps s2
  end.

(** Messages that the other processes put on the two inbound sockets
    before a cycle reads them. *)
Record Arrivals : Type := {
  new_requests : Batch;
  new_decodes : Batch;
}.

Definition deliver (a : Arrivals) (s : DecodeScheduler) : DecodeScheduler :=
  with_request_pull_socket (request_pull_socket s ++ new_requests a)
    (with_decode_pull_socket (decode_pull_socket s ++ new_decodes a) s).

(** [run]: [self.pc.is_canceled()] answers no once per element of
    [deliveries], then yes, and the loop is left. *)
Fixpoint run (deliveries : list Arrivals) (s : DecodeScheduler)
  : Res DecodeScheduler :=
  match deliveries with
  | [] => Ok (record_call (CallIsCanceled true) s)
  | a :: deliveries' =>
      s' ← cycle (record_call (CallIsCanceled false) (deliver a s));
      run deliveries' s'
  end.

End Scheduler.

(** ** The step plan as a formula *)

Section StepPlan.
Context `{Collab : Collaborators}.

Definition has_no_budget (c : InputContext) : bool :=
  bool_decide (max_length c = None).

(** Steps a member can take before exhausting its own [max_length]. *)
Definition member_available_steps (c : InputContext) : Z :=
  match max_length c with
  | Some bound => compute_num_available_steps c bound
  | None => 0
  end.

(** The maximum of the per-member values of a batch with first member
    [c]. *)
Definition batch_maximum (c : InputContext) (cs : list InputContext) : Z :=
  foldr Z.max (member_available_steps c) (member_available_steps <$> cs).

(** The plan in the words of the design document: the per-tick maximum
    when a member has no budget, else the batch maximum when it is below
    the per-tick maximum. *)
Definition step_plan_as_documented (cfg : DecodeSchedulerConfig) (b : Batch)
  : option Z :=
  match od_values b with
  | [] => None
  | c :: cs =>
      if existsb has_no_budget (c :: cs) then Some (max_forward_steps_tg cfg)
      else if batch_maximum c cs <? max_forward_steps_tg cfg
           then Some (batch_maximum c cs)
           else Some (max_forward_steps_tg cfg)
  end.

(** The same with the guard of the code: the batch maximum is used only
    when it is positive. *)
Definition step_plan_guarded (cfg : DecodeSchedulerConfig) (b : Batch)
  : option Z :=
  match od_values b with
  | [] => None
  | c :: cs =>
      if existsb has_no_budget (c :: cs) then Some (max_forward_steps_tg cfg)
      else if (0 <? batch_maximum c cs)
              && (batch_maximum c cs <? max_forward_steps_tg cfg)
           then Some (batch_maximum c cs)
           else Some (max_forward_steps_tg cfg)
  end.

End StepPlan.

(** ** Vocabulary of the reservation phase *)

Section Reservation.
Context `{Collab : Collaborators}.

(** The step count that [update_batch] asks the cache manager to reserve
    for a candidate. *)
Definition reservation_steps (s : DecodeScheduler) (context : InputContext)
  : Z :=
  let num_available_steps :=
    compute_num_available_steps context (max_seq_len (world s)) in
  if max_forward_steps_tg (scheduler_config s) <? num_available_steps
  then max_forward_steps_tg (scheduler_config s)
  else num_available_steps.

(** The state after a failed [prefetch] of [request_id] that left the
    collaborators in [w]. *)
Definition after_failed_prefetch (request_id : string)
  (context : InputContext) (w : World) (s : DecodeScheduler)
  : DecodeScheduler :=
  record_call
    (CallPrefetch request_id (reservation_steps s context) false)
    (with_world w s).

(** The effect of [return_to_decode_queue] on a context holding [slot]:
    the slot goes back to the pool, the generator releases the context,
    the context is reset and queued on the preempted queue. *)
Definition requeued (request_id : string) (data : InputContext) (slot : Z)
  (s : DecodeScheduler) : DecodeScheduler :=
  with_preempted_decode
    (preempted_decode s ++ [(request_id, reset (release (world s) data).2)])
    (record_call (CallRelease request_id data)
       (with_world (release (world s) data).1
          (with_available_cache_indices
             ({[slot]} ∪ available_cache_indices s) s))).

(** The eviction of [request_id] from the active batch: requeued, and its
    entry deleted. *)
Definition evicted (request_id : string) (data : InputContext) (slot : Z)
  (s : DecodeScheduler) : DecodeScheduler :=
  with_active_batch (od_del (active_batch s) request_id)
    (requeued request_id data slot s).

Definition all_assigned (b : Batch) : Prop :=
  Forall (λ kc, is_Some (cache_seq_id kc.2)) b.

Definition all_unassigned (b : Batch) : Prop :=
  Forall (λ kc, cache_seq_id kc.2 = None) b.

(** The invariant of the reservation loop: the keys of the active batch
    are the confirmed requests followed by the working list. *)
Definition reserve_inv (confirmed candidate_requests : list string)
  (s : DecodeScheduler) : Prop :=
  od_keys (active_batch s) = confirmed ++ candidate_requests
  ∧ NoDup (od_keys (active_batch s))
  ∧ all_assigned (active_batch s).


Definition is_release (c : Call) : bool :=
  match c with CallRelease _ _ => true | _ => false end.

Definition is_release_of (request_id : string) (c : Call) : bool :=
  match c with
  | CallRelease k _ => bool_decide (k = request_id)
  | _ => false
  end.


(** The number of calls of a kind in a call log. *)
Definition count_calls (p : Call → bool) (l : list Call) : nat :=
  length (List.filter p l).

End Reservation.

(** ** Vocabulary of the response stream *)

Section Stream.
Context `{Collab : Collaborators}.

(** What frame [i] holds for request [k]. *)
Definition cell (frames : list Frame) (i : nat) (k : string)
  : option TextResponse :=
  frames !! i ≫= (λ frame, frame !! k).

(** Frames that a response needs: one per token, one more for the stop
    sentinel of a terminated request. *)
Definition frames_needed (response : TextGenerationResponse) : nat :=
  (length (tokens response) + (if is_done response then 1 else 0))%nat.

(** The frame count in the words of the design document. *)
Definition frame_count_as_documented (r : Responses) : nat :=
  max_list (frames_needed <$> r.*2).

(** What the frames hold for a request with the given response: its
    tokens in order, then the stop sentinel if it terminated, then
    nothing. *)
Definition expected_cell (response : TextGenerationResponse) (i : nat)
  : option TextResponse :=
  match tokens response !! i with
  | Some t => Some (Token t)
  | None =>
      if is_done response && bool_decide (i = length (tokens response))
      then Some STOP_STREAM else None
  end.

End Stream.

(** ** Vocabulary of slot conservation *)

Section Slots.
Context `{Collab : Collaborators}.

(** The effect of reclaiming a terminated request in
    [_handle_terminated_responses]: the generator releases the context,
    the slot goes back to the pool, the entry leaves the active batch. *)
Definition reclaimed (request_id : string) (context : InputContext)
  (cache_id : Z) (s : DecodeScheduler) : DecodeScheduler :=
  with_active_batch (od_del (active_batch s) request_id)
    (with_available_cache_indices
       ({[cache_id]} ∪ available_cache_indices s)
       (record_call (CallRelease request_id context)
          (with_world (release (world s) context).1 s))).

(** The slots held by the members of a batch, in batch order. *)
Definition claimed (b : Batch) : list Z :=
  omap (λ kc, cache_seq_id kc.2) b.


(** The slot identifiers configured at construction. *)
Definition all_slots (cfg : DecodeSchedulerConfig) : gset Z :=
  list_to_set (seqZ 0 (max_batch_size_tg cfg)).


(** Free and claimed slots partition the configured slots. *)
Definition slot_partition (s : DecodeScheduler) : Prop :=
  (size (available_cache_indices s) + length (claimed (active_batch s))
   = Z.to_nat (max_batch_size_tg (scheduler_config s)))%nat
  ∧ available_cache_indices s ## list_to_set (claimed (active_batch s))
  ∧ available_cache_indices s ∪ list_to_set (claimed (active_batch s))
    = all_slots (scheduler_config s)
  ∧ NoDup (od_keys (active_batch s))
  ∧ all_assigned (active_batch s)
  ∧ NoDup (claimed (active_batch s))
  ∧ length (claimed (active_batch s)) = length (active_batch s)
  ∧ (length (active_batch s)
     ≤ Z.to_nat (max_batch_size_tg (scheduler_config s)))%nat.

(** What the scheduler relies on from its collaborators and from the
    decode socket. *)




End Slots.

(** ** Vocabulary of forwarding, admission and the cycle *)

Section Forwarding.
Context `{Collab : Collaborators}.

(** Two schedulers that differ at most in the request and prefill
    sockets and in the state of the collaborators. *)
Definition same_but_forwarding (s s' : DecodeScheduler) : Prop :=
  scheduler_config s' = scheduler_config s
  ∧ response_push_socket s' = response_push_socket s
  ∧ decode_pull_socket s' = decode_pull_socket s
  ∧ preempted_decode s' = preempted_decode s
  ∧ active_batch s' = active_batch s
  ∧ available_cache_indices s' = available_cache_indices s
  ∧ calls s' = calls s.

Definition is_external_claim (c : Call) : bool :=
  match c with CallExternalClaim _ => true | _ => false end.

Definition is_next_token (c : Call) : bool :=
  match c with CallNextToken _ => true | _ => false end.

(** The slots named by the [external_claim] calls of a log. *)
Definition claimed_by_calls (l : list Call) : list Z :=
  mjoin (omap (λ c, match c with
                    | CallExternalClaim ids => Some ids
                    | _ => None
                    end) l).

(** Whether the response set marks request [k] terminated. *)
Definition terminated_in (r : Responses) (k : string) : bool :=
  match od_get r k with
  | Some response => is_done response
  | None => false
  end.

(** What one iteration of the admission loop that stays in the loop does
    to the scheduler: request [k] leaves the head of the preempted queue
    (or of the decode socket when that queue is empty), is given a free
    slot if it holds none, and is stored in the active batch. *)
Definition admission_step (s s1 : DecodeScheduler) : Prop :=
  ∃ k c c' (claim : list Call),
    (preempted_decode s = (k, c) :: preempted_decode s1
     ∧ decode_pull_socket s1 = decode_pull_socket s
     ∨ preempted_decode s = [] ∧ preempted_decode s1 = []
       ∧ decode_pull_socket s = (k, c) :: decode_pull_socket s1)
    ∧ (is_assigned_to_cache c = true ∧ c' = c ∧ claim = []
       ∧ available_cache_indices s1 = available_cache_indices s
       ∨ ∃ x, is_assigned_to_cache c = false
              ∧ c' = assign_to_cache c x
              ∧ claim = [CallExternalClaim [x]]
              ∧ x ∈ available_cache_indices s
              ∧ available_cache_indices s1
                = available_cache_indices s ∖ {[x]})
    ∧ is_Some (cache_seq_id c')
    ∧ active_batch s1 = od_set (active_batch s) k c'
    ∧ calls s1 = calls s ++ claim
    ∧ scheduler_config s1 = scheduler_config s
    ∧ request_pull_socket s1 = request_pull_socket s
    ∧ prefill_push_socket s1 = prefill_push_socket s
    ∧ response_push_socket s1 = response_push_socket s.

(** The identifiers of the requests the scheduler holds for decode:
    active, preempted, or waiting on the decode socket. *)
Definition held_request_ids (s : DecodeScheduler) : list string :=
  od_keys (active_batch s) ++ od_keys (preempted_decode s)
  ++ od_keys (decode_pull_socket s).

Definition is_prefetch (c : Call) : bool :=
  match c with CallPrefetch _ _ _ => true | _ => false end.

(** A phase that makes only calls of the kinds [allowed] and touches
    neither the configuration nor the request, prefill and response
    sockets. *)
Definition quiet (allowed : Call → bool) (s s' : DecodeScheduler) : Prop :=
  (∃ new, calls s' = calls s ++ new ∧ Forall (λ c, allowed c = true) new)
  ∧ scheduler_config s' = scheduler_config s
  ∧ request_pull_socket s' = request_pull_socket s
  ∧ prefill_push_socket s' = prefill_push_socket s
  ∧ response_push_socket s' = response_push_socket s.

(** The requests waiting for a slot, in the order in which
    [pull_from_decode_socket] will return them. *)
Definition waiting (s : DecodeScheduler) : Batch :=
  preempted_decode s ++ decode_pull_socket s.

(** A transport that never fails on the two sockets of the forwarding
    loop. *)
Definition transport_reliable : Prop :=
  (∀ w : World, (request_socket_fault w).1 = false)
  ∧ (∀ (w : World) (request_id : string) (data : InputContext),
       (prefill_socket_fault w request_id data).1 = false).

(** What the admission loop stores in the batch for a request that it
    pulled: the request as it is when it holds a slot, and else the
    request with a slot assigned. *)
Definition stored_as (pulled stored : string * InputContext) : Prop :=
  stored.1 = pulled.1
  ∧ is_Some (cache_seq_id stored.2)
  ∧ (stored.2 = pulled.2
     ∨ cache_seq_id pulled.2 = None
       ∧ ∃ slot, stored.2 = assign_to_cache pulled.2 slot).

(** The batch after storing the requests of [taken], in that order:
    [self.active_batch[request_id] = context] for each. *)
Definition store_all (b taken : Batch) : Batch :=
  foldl (λ b kc, od_set b kc.1 kc.2) b taken.


(** The state in which the cycle that follows a state [s] and the
    arrivals [a] enters [update_batch]. *)
Definition admission_entry (a : Arrivals) (s : DecodeScheduler)
  : DecodeScheduler :=
  reserve_memory_and_send_to_prefill
    (record_call CallBeat (record_call (CallIsCanceled false) (deliver a s))).

End Forwarding.

(** ** A scripted instance of the collaborators

    The generation state is the current length of the request, the world
    is the list of answers the cache manager will give to the coming
    [prefetch] calls (it answers yes once the script is exhausted), and
    the generator produces [num_steps] tokens per request, terminating the
    requests that reach their [max_length].  The transport never
    fails. *)

Module Scripted.

#[local] Instance carriers : Carriers :=
  {| Gen := Z; Tok := Z; World := list bool |}.

Definition steps_left (c : InputContext) (bound : Z) : Z := bound - gen c.

Definition rewind (c : InputContext) : InputContext :=
  {| cache_seq_id := cache_seq_id c; max_length := max_length c; gen := 0 |}.

Definition answer (w : list bool) (c : InputContext) (n : Z)
  : bool * list bool :=
  match w with
  | [] => (true, [])
  | b :: w' => (b, w')
  end.

Definition drop_slot (w : list bool) (c : InputContext)
  : list bool * InputContext :=
  (w, {| cache_seq_id := None; max_length := max_length c; gen := gen c |}).

Definition advance (n : Z) (c : InputContext) : InputContext :=
  {| cache_seq_id := cache_seq_id c; max_length := max_length c;
     gen := gen c + n |}.

Definition produce (n : Z) (c : InputContext) : TextGenerationResponse :=
  {| tokens := seqZ (gen c) n;
     is_done := match max_length c with
                | Some bound => bound <=? gen c + n
                | None => false
                end |}.

Definition generate (w : list bool) (b : Batch) (n : Z)
  : list bool * Batch * Responses :=
  (w, prod_map id (advance n) <$> b, prod_map id (produce n) <$> b).

#[local] Instance collaborators : Collaborators :=
  {| compute_num_available_steps := steps_left;
     reset := rewind;
     max_seq_len := λ _, 1024;
     external_claim := λ w _, w;
     prefetch := answer;
     release := drop_slot;
     next_token := generate;
     request_socket_fault := λ w, (false, w);
     prefill_socket_fault := λ w _ _, (false, w) |}.

Definition ctx (slot : option Z) (bound : option Z) (len : Z)
  : InputContext :=
  {| cache_seq_id := slot; max_length := bound; gen := len |}.

Definition config (batch_size steps : Z) : DecodeSchedulerConfig :=
  {| max_batch_size_tg := batch_size; max_forward_steps_tg := steps |}.

(** A scheduler between two cycles: sockets other than the decode
    socket empty, nothing sent, no call made yet. *)
Definition sched (cfg : DecodeSchedulerConfig) (w : list bool)
  (active preempted inbound : Batch) (free : gset Z) : DecodeScheduler :=
  {| scheduler_config := cfg; world := w;
     request_pull_socket := [];
     response_push_socket := [];
     decode_pull_socket := inbound;
     prefill_push_socket := [];
     preempted_decode := preempted;
     active_batch := active;
     available_cache_indices := free;
     calls := [] |}.

End Scripted.

(** ** Variants of the scripted collaborators

    Each changes one thing.  In [Flaky] the world is the list of answers
    of the transport to the coming socket operations of the forwarding
    loop, [true] for a failure (it works once the script is exhausted),
    and the cache manager always accepts.  In [Sticky] the generator's
    [release] leaves the slot assignment on the context.  In [Rogue] the
    generator hands the contexts back without their slot assignment. *)

Module Flaky.

Definition transport (w : list bool) : bool * list bool :=
  match w with
  | [] => (false, [])
  | b :: w' => (b, w')
  end.

#[local] Instance collaborators : @Collaborators Scripted.carriers :=
  {| compute_num_available_steps := Scripted.steps_left;
     reset := Scripted.rewind;
     max_seq_len := λ _, 1024;
     external_claim := λ w _, w;
     prefetch := λ w _ _, (true, w);
     release := Scripted.drop_slot;
     next_token := Scripted.generate;
     request_socket_fault := transport;
     prefill_socket_fault := λ w _ _, transport w |}.

End Flaky.

Module Sticky.

#[local] Instance collaborators : @Collaborators Scripted.carriers :=
  {| compute_num_available_steps := Scripted.steps_left;
     reset := Scripted.rewind;
     max_seq_len := λ _, 1024;
     external_claim := λ w _, w;
     prefetch := Scripted.answer;
     release := λ w c, (w, c);
     next_token := Scripted.generate;
     request_socket_fault := λ w, (false, w);
     prefill_socket_fault := λ w _ _, (false, w) |}.

End Sticky.

Module Rogue.

Definition generate (w : list bool) (b : Batch) (n : Z)
  : list bool * Batch * Responses :=
  (w, prod_map id (λ c, (Scripted.drop_slot w c).2) <$> b,
   prod_map id (Scripted.produce n) <$> b).

#[local] Instance collaborators : @Collaborators Scripted.carriers :=
  {| compute_num_available_steps := Scripted.steps_left;
     reset := Scripted.rewind;
     max_seq_len := λ _, 1024;
     external_claim := λ w _, w;
     prefetch := Scripted.answer;
     release := Scripted.drop_slot;
     next_token := generate;
     request_socket_fault := λ w, (false, w);
     prefill_socket_fault := λ w _ _, (false, w) |}.

End Rogue.

(** ** Concrete schedulers over the scripted collaborators *)

Section Examples.
#[local] Existing Instance Scripted.carriers.
#[local] Existing Instance Scripted.collaborators.

(** The planner on a batch whose only member has used up its budget of 5:
    the batch maximum is 0, below the per-tick maximum 10, and the planner
    returns 10. *)
Definition exhausted_member : DecodeScheduler :=
  Scripted.sched (Scripted.config 2 10) []
    [("a"%string, Scripted.ctx (Some 0) (Some 5) 5)] [] [] {[1]}.

(** Two members with budgets 8 and 9 at lengths 5 and 2: the batch maximum
    is 7, below the per-tick maximum 10. *)
Definition two_budgets : DecodeScheduler :=
  Scripted.sched (Scripted.config 2 10) []
    [("a"%string, Scripted.ctx (Some 0) (Some 8) 5);
     ("b"%string, Scripted.ctx (Some 1) (Some 9) 2)] [] [] ∅.

(** A scheduler with no member and both slots free. *)
Definition idle : DecodeScheduler :=
  Scripted.sched (Scripted.config 2 10) [] [] [] [] {[0; 1]}.

(** A response set whose only request produced no token and goes on. *)
Definition silent_response : Responses :=
  [("a"%string, {| tokens := []; is_done := false |})].

(** Request A produces three tokens and terminates, request B produces
    five and continues. *)
Definition framing_responses : Responses :=
  [("A"%string, {| tokens := [10; 11; 12]; is_done := true |});
   ("B"%string, {| tokens := [20; 21; 22; 23; 24]; is_done := false |})].

(** Two requests taken in the order r1, r2, holding the two slots;
    [script] is what the cache manager will answer. *)
Definition full_batch (script : list bool) : DecodeScheduler :=
  Scripted.sched (Scripted.config 2 10) script
    [("r1"%string, Scripted.ctx (Some 0) None 7);
     ("r2"%string, Scripted.ctx (Some 1) None 4)] [] [] ∅.

(** r1 active, r2 preempted earlier, r3 waiting on the decode socket, one
    slot free. *)
Definition refill : DecodeScheduler :=
  Scripted.sched (Scripted.config 2 10) []
    [("r1"%string, Scripted.ctx (Some 0) None 7)]
    [("r2"%string, Scripted.ctx None None 0)]
    [("r3"%string, Scripted.ctx None None 0)] {[1]}.

(** A response set for [full_batch]: r1 terminated, r2 goes on. *)
Definition r1_done : Responses :=
  [("r1"%string, {| tokens := [1]; is_done := true |});
   ("r2"%string, {| tokens := [2]; is_done := false |})].

(** Two cycles at batch size 2: R1 and R2 arrive for the first cycle, R3
    for the second.  In the first cycle the cache manager accepts R1 and
    refuses R2. *)
Definition two_cycles : list Arrivals :=
  [{| new_requests := [];
      new_decodes := [("R1"%string, Scripted.ctx None None 3);
                      ("R2"%string, Scripted.ctx None None 5)] |};
   {| new_requests := [];
      new_decodes := [("R3"%string, Scripted.ctx None None 2)] |}].



(** [two_budgets] with its batch in the other order. *)
Definition two_budgets_swapped : DecodeScheduler :=
  Scripted.sched (Scripted.config 2 10) []
    [("b"%string, Scripted.ctx (Some 1) (Some 9) 2);
     ("a"%string, Scripted.ctx (Some 0) (Some 8) 5)] [] [] ∅.

(** Responses none of which is terminated; "zz" is no member of
    [full_batch]. *)
Definition none_done : Responses :=
  [("r1"%string, {| tokens := [1]; is_done := false |});
   ("zz"%string, {| tokens := [2]; is_done := false |})].

(** r1 is ten steps away from its [max_length] of 17, r2 has none. *)
Definition ending_batch : DecodeScheduler :=
  Scripted.sched (Scripted.config 2 10) []
    [("r1"%string, Scripted.ctx (Some 0) (Some 17) 7);
     ("r2"%string, Scripted.ctx (Some 1) None 4)] [] [] ∅.


(** Two cycles in which the decode socket delivers the identifier R1
    twice. *)
Definition repeated_identifier : list Arrivals :=
  [{| new_requests := [];
      new_decodes := [("R1"%string, Scripted.ctx None None 3)] |};
   {| new_requests := [];
      new_decodes := [("R1"%string, Scripted.ctx None None 4)] |}].

(** One cycle in which a single request arrives for decode. *)
Definition one_arrival : list Arrivals :=
  [{| new_requests := [];
      new_decodes := [("R1"%string, Scripted.ctx None None 3)] |}].

(** r1 active, r2 preempted earlier, r3 and r4 waiting on the decode
    socket, two of four slots free. *)
Definition readmission : DecodeScheduler :=
  Scripted.sched (Scripted.config 4 10) []
    [("r1"%string, Scripted.ctx (Some 0) None 7)]
    [("r2"%string, Scripted.ctx None None 0)]
    [("r3"%string, Scripted.ctx None None 0);
     ("r4"%string, Scripted.ctx None None 0)] {[1; 2]}.


End Examples.

(** ** Step planning *)

Lemma bind_Ok {A B} (a : A) (f : A → Res B) : (Ok a ≫= f) = f a.
Proof. done. Qed.

Section StepPlanProofs.
Context `{Collab : Collaborators}.

Lemma foldr_max_shift (x y : Z) (l : list Z) :
  foldr Z.max (Z.max x y) l = Z.max x (foldr Z.max y l).
Proof. induction l as [|z l IH]; simpl; lia. Qed.

Lemma batch_available_steps_loop_spec (cs : list InputContext) (acc : Z) :
  batch_available_steps_loop cs acc =
    if existsb has_no_budget cs then None
    else Some (foldr Z.max acc (member_available_steps <$> cs)).
Proof.
  revert acc. induction cs as [|c cs IH]; intros acc; simpl; [done|].
  unfold has_no_budget at 1, member_available_steps at 1.
  destruct (max_length c) as [bound|] eqn:Hb; simpl; [|done].
  rewrite IH. destruct (existsb has_no_budget cs); [done|].
  f_equal. set (r := compute_num_available_steps c bound).
  assert (Hmax : (if r >? acc then r else acc) = Z.max r acc).
  { destruct (Z.gtb_spec r acc); lia. }
  rewrite Hmax. apply foldr_max_shift.
Qed.

Lemma foldr_max_swap (x y : Z) (l : list Z) :
  Z.max x (foldr Z.max y l) = Z.max y (foldr Z.max x l).
Proof. rewrite <- !foldr_max_shift. by rewrite Z.max_comm. Qed.

Lemma calculate_batch_num_steps_guarded (s : DecodeScheduler) :
  active_batch s ≠ [] →
  ∃ n, step_plan_guarded (scheduler_config s) (active_batch s) = Some n
       ∧ calculate_batch_num_steps s = Ok n.
Proof.
  intros Hne. unfold calculate_batch_num_steps, step_plan_guarded.
  destruct (active_batch s) as [|[k c] b] eqn:Hb; [done|].
  rewrite batch_available_steps_loop_spec.
  unfold od_values. cbn [fmap list_fmap snd].
  destruct (existsb has_no_budget (c :: b.*2)) eqn:He; [eauto|].
  cbn [foldr]. rewrite foldr_max_swap. fold (batch_maximum c (b.*2)).
  set (m := batch_maximum c (b.*2)).
  set (M := max_forward_steps_tg (scheduler_config s)).
  destruct (Z.ltb_spec 0 m), (Z.ltb_spec m M); cbn [andb];
    destruct (Z.gtb_spec (Z.max (-1) m) 0); cbn [andb]; try lia;
    try destruct (Z.ltb_spec (Z.max (-1) m) M); try lia;
    eexists; (split; [reflexivity|]); f_equal; lia.
Qed.

(** C3 (as amended).  For a non-empty batch the planner returns the
    per-tick maximum when some member has no [max_length]; otherwise it
    returns the maximum of the members' available steps when that maximum
    is positive and strictly below the per-tick maximum, and the per-tick
    maximum in every other case. *)
Theorem calculate_batch_num_steps_plan (s : DecodeScheduler)
    (k : string) (c : InputContext) (b : Batch) :
  active_batch s = (k, c) :: b →
  let M := max_forward_steps_tg (scheduler_config s) in
  let m := batch_maximum c (od_values b) in
  (existsb has_no_budget (c :: od_values b) = true →
     calculate_batch_num_steps s = Ok M)
  ∧ (existsb has_no_budget (c :: od_values b) = false →
     calculate_batch_num_steps s
     = Ok (if (0 <? m) && (m <? M) then m else M)).
Proof.
  intros Hb M m.
  destruct (calculate_batch_num_steps_guarded s) as (n & Hn & ->).
  { by rewrite Hb. }
  revert Hn. unfold step_plan_guarded. rewrite Hb.
  cbn [od_values fmap list_fmap snd]. fold (od_values b). fold M m.
  destruct (existsb has_no_budget (c :: od_values b)).
  - intros [= <-]. split; [done | intros; discriminate].
  - intros Hn. split; [intros; discriminate | intros _].
    by destruct ((0 <? m) && (m <? M)); injection Hn as <-.
Qed.

(** C8.  For a non-empty batch the planned step count is at most
    [max_forward_steps_tg]. *)
Theorem calculate_batch_num_steps_le_max (s : DecodeScheduler) :
  active_batch s ≠ [] →
  ∃ n, calculate_batch_num_steps s = Ok n
       ∧ n ≤ max_forward_steps_tg (scheduler_config s).
Proof.
  intros Hne.
  destruct (calculate_batch_num_steps_guarded s Hne) as (n & Hn & ->).
  exists n. split; [done|].
  revert Hn. unfold step_plan_guarded.
  destruct (od_values (active_batch s)) as [|c cs]; [done|].
  destruct (existsb has_no_budget (c :: cs)); [intros [= <-]; lia|].
  destruct (Z.ltb_spec 0 (batch_maximum c cs)),
    (Z.ltb_spec (batch_maximum c cs)
       (max_forward_steps_tg (scheduler_config s)));
    cbn [andb]; intros [= <-]; lia.
Qed.

(** C9.  Step planning raises exactly when the active batch is empty, the
    exception is then the [RuntimeError] of the source, and on a non-empty
    batch it returns a value. *)
Theorem calculate_batch_num_steps_raises_iff_empty (s : DecodeScheduler) :
  (is_ok (calculate_batch_num_steps s) = false ↔ active_batch s = [])
  ∧ (active_batch s = [] →
     calculate_batch_num_steps s
     = Raise (RuntimeError
         "active_batch must contain at least one context to calculate num_steps"))
  ∧ (active_batch s ≠ [] → ∃ n, calculate_batch_num_steps s = Ok n).
Proof.
  assert (Hok : active_batch s ≠ [] → ∃ n, calculate_batch_num_steps s = Ok n).
  { intros Hne.
    destruct (calculate_batch_num_steps_guarded s Hne) as (n & _ & Hn); eauto. }
  assert (Hraise : active_batch s = [] →
    calculate_batch_num_steps s
    = Raise (RuntimeError
        "active_batch must contain at least one context to calculate num_steps")).
  { intros He. unfold calculate_batch_num_steps. by rewrite He. }
  split_and!; [|done|done].
  split.
  - intros Hf. destruct (active_batch s) as [|x b] eqn:Hb; [done|].
    destruct Hok as [n Hn]; [done|]. rewrite Hn in Hf. discriminate.
  - intros He. by rewrite Hraise.
Qed.

End StepPlanProofs.

Section StepPlanExamples.
#[local] Existing Instance Scripted.carriers.
#[local] Existing Instance Scripted.collaborators.

Lemma calculate_batch_num_steps_not_documented :
  calculate_batch_num_steps exhausted_member = Ok 10
  ∧ step_plan_as_documented (scheduler_config exhausted_member)
      (active_batch exhausted_member) = Some 0
  ∧ ¬ (∃ n, step_plan_as_documented (scheduler_config exhausted_member)
              (active_batch exhausted_member) = Some n
            ∧ calculate_batch_num_steps exhausted_member = Ok n).
Proof.
  split_and!; [reflexivity | reflexivity |].
  intros (n & Hn & Hc). vm_compute in Hn, Hc. congruence.
Qed.

Lemma calculate_batch_num_steps_plan_witness :
  active_batch two_budgets
  = [("a"%string, Scripted.ctx (Some 0) (Some 8) 5);
     ("b"%string, Scripted.ctx (Some 1) (Some 9) 2)]
  ∧ calculate_batch_num_steps two_budgets = Ok 7.
Proof.
  split; [reflexivity|].
  exact (proj2 (calculate_batch_num_steps_plan two_budgets _ _ _ eq_refl)
           eq_refl).
Defined.

Lemma calculate_batch_num_steps_le_max_witness :
  active_batch two_budgets ≠ []
  ∧ ∃ n, calculate_batch_num_steps two_budgets = Ok n ∧ n ≤ 10.
Proof.
  assert (Hne : active_batch two_budgets ≠ []) by discriminate.
  split; [exact Hne|].
  exact (calculate_batch_num_steps_le_max two_budgets Hne).
Defined.

Lemma calculate_batch_num_steps_raises_iff_empty_witness :
  active_batch two_budgets ≠ []
  ∧ ∃ n, calculate_batch_num_steps two_budgets = Ok n.
Proof.
  assert (Hne : active_batch two_budgets ≠ []) by discriminate.
  split; [exact Hne|].
  exact (proj2 (proj2 (calculate_batch_num_steps_raises_iff_empty two_budgets))
           Hne).
Defined.

End StepPlanExamples.

(** ** Admission *)

Section AdmissionProofs.
Context `{Collab : Collaborators}.

Lemma pull_from_decode_socket_preempted (s : DecodeScheduler) r q :
  preempted_decode s = r :: q →
  pull_from_decode_socket s = Ok (r, with_preempted_decode q s).
Proof. intros Hp. unfold pull_from_decode_socket. by rewrite Hp. Qed.

Lemma pull_from_decode_socket_inbound (s s' : DecodeScheduler) r :
  pull_from_decode_socket s = Ok (r, s') →
  decode_pull_socket s' ≠ decode_pull_socket s →
  preempted_decode s = [].
Proof.
  unfold pull_from_decode_socket.
  destruct (preempted_decode s) as [|p q]; [done|].
  intros [= <- <-]. done.
Qed.

(** The admission loop consumes a prefix of the preempted queue followed
    by the inbound decode socket. *)
Lemma admission_loop_consumes (fuel : nat) (s s' : DecodeScheduler) :
  admission_loop fuel s = Ok s' →
  ∃ n : nat,
    preempted_decode s' = drop n (preempted_decode s)
    ∧ decode_pull_socket s'
      = drop (n - length (preempted_decode s)) (decode_pull_socket s).
Proof.
  revert s. induction fuel as [|fuel IH]; intros s; cbn [admission_loop].
  - destruct (decide (available_cache_indices s = ∅)) as [He|Hne]; [|done].
    intros [= <-]. by exists 0%nat.
  - destruct (decide (available_cache_indices s = ∅)) as [He|Hne].
    { intros [= <-]. by exists 0%nat. }
    unfold pull_from_decode_socket.
    destruct (preempted_decode s) as [|[k c] q] eqn:Hp.
    + destruct (decode_pull_socket s) as [|[k c] q] eqn:Hd.
      { intros [= <-]. exists 0%nat. by rewrite Hp, Hd. }
      assert (Hstep : ∀ s1 : DecodeScheduler,
        preempted_decode s1 = [] → decode_pull_socket s1 = q →
        admission_loop fuel s1 = Ok s' →
        ∃ n : nat, preempted_decode s' = drop n []
          ∧ decode_pull_socket s' = drop (n - length (@nil (string * InputContext))) ((k, c) :: q)).
      { intros s1 Hp1 Hd1 (n & Hn1 & Hn2)%IH. rewrite Hp1 in Hn1, Hn2.
        rewrite Hd1 in Hn2. exists (S n).
        split; [by rewrite Hn1, !drop_nil|].
        rewrite Hn2. cbn. by rewrite !Nat.sub_0_r. }
      destruct (is_assigned_to_cache c); [by apply Hstep|].
      destruct (set_pop _) as [[slot rest]|]; [|done]. by apply Hstep.
    + assert (Hstep : ∀ s1 : DecodeScheduler,
        preempted_decode s1 = q →
        decode_pull_socket s1 = decode_pull_socket s →
        admission_loop fuel s1 = Ok s' →
        ∃ n : nat, preempted_decode s' = drop n ((k, c) :: q)
          ∧ decode_pull_socket s'
            = drop (n - length ((k, c) :: q)) (decode_pull_socket s)).
      { intros s1 Hp1 Hd1 (n & Hn1 & Hn2)%IH. rewrite Hp1 in Hn1, Hn2.
        rewrite Hd1 in Hn2. exists (S n). by rewrite Hn1, Hn2. }
      destruct (is_assigned_to_cache c); [by apply Hstep|].
      destruct (set_pop _) as [[slot rest]|]; [|done]. by apply Hstep.
Qed.

(** Fuel beyond the number of queued requests changes nothing, so
    [admission_phase] never ends in [Diverged]. *)
Lemma admission_loop_fuel (fuel1 : nat) :
  ∀ (fuel2 : nat) (s : DecodeScheduler),
    (length (preempted_decode s) + length (decode_pull_socket s) < fuel1)%nat →
    (length (preempted_decode s) + length (decode_pull_socket s) < fuel2)%nat →
    admission_loop fuel1 s = admission_loop fuel2 s.
Proof.
  induction fuel1 as [|fuel1 IH]; intros fuel2 s H1 H2; [lia|].
  destruct fuel2 as [|fuel2]; [lia|]. cbn [admission_loop].
  destruct (decide (available_cache_indices s = ∅)) as [He|Hne]; [done|].
  unfold pull_from_decode_socket.
  destruct (preempted_decode s) as [|[k c] q] eqn:Hp.
  - destruct (decode_pull_socket s) as [|[k c] q] eqn:Hd; [done|].
    cbn in H1, H2.
    destruct (is_assigned_to_cache c).
    + apply IH; cbn; rewrite Hp; cbn; lia.
    + destruct (set_pop _) as [[slot rest]|]; [|done].
      apply IH; cbn; rewrite Hp; cbn; lia.
  - cbn in H1, H2. destruct (is_assigned_to_cache c).
    + apply IH; cbn; lia.
    + destruct (set_pop _) as [[slot rest]|]; [|done].
      apply IH; cbn; lia.
Qed.

End AdmissionProofs.

(** ** Facts about insertion-ordered dictionaries *)

Section OrderedDictFacts.
Context {V : Type}.
Implicit Types (d : list (string * V)) (k : string) (v : V).

Lemma od_get_None d k : od_get d k = None ↔ k ∉ od_keys d.
Proof.
  unfold od_keys. induction d as [|[k' v'] d IH]; cbn.
  - split; [intros _; apply not_elem_of_nil | done].
  - rewrite not_elem_of_cons. destruct (decide (k' = k)) as [->|Hne].
    + split; [done | by intros [? _]].
    + rewrite IH. split; [by intros ?; split; [intros ->|] | by intros [_ ?]].
Qed.

Lemma od_get_is_Some d k : k ∈ od_keys d → is_Some (od_get d k).
Proof.
  intros Hk. destruct (od_get d k) eqn:Hg; [eauto|].
  by apply od_get_None in Hg.
Qed.

Lemma od_get_elem_of d k v : od_get d k = Some v → (k, v) ∈ d.
Proof.
  induction d as [|[k' v'] d IH]; cbn; [done|].
  destruct (decide (k' = k)) as [->|Hne].
  - intros [= ->]. apply list_elem_of_here.
  - intros Hg. apply list_elem_of_further. by apply IH.
Qed.


Lemma od_get_app_fresh d1 d2 k v :
  k ∉ od_keys d1 → od_get (d1 ++ (k, v) :: d2) k = Some v.
Proof.
  unfold od_keys. induction d1 as [|[k' v'] d1 IH]; cbn.
  - intros _. by rewrite decide_True.
  - rewrite not_elem_of_cons. intros [Hne Hk]. rewrite decide_False by done. auto.
Qed.

Lemma od_set_fresh d k v : k ∉ od_keys d → od_set d k v = d ++ [(k, v)].
Proof.
  unfold od_keys. induction d as [|[k' v'] d IH]; cbn; [done|].
  rewrite not_elem_of_cons. intros [Hne Hk].
  rewrite decide_False by done. by rewrite IH.
Qed.

Lemma od_get_del_ne d k k' : k ≠ k' → od_get (od_del d k) k' = od_get d k'.
Proof.
  intros Hne. induction d as [|[k0 v0] d IH]; cbn; [done|].
  destruct (decide (k0 = k)) as [->|Hk0].
  - by rewrite decide_False.
  - cbn. by rewrite IH.
Qed.

Lemma od_keys_app d1 d2 : od_keys (d1 ++ d2) = od_keys d1 ++ od_keys d2.
Proof. unfold od_keys. apply fmap_app. Qed.

End OrderedDictFacts.

(** ** The reservation phase *)

Section ReservationProofs.
Context `{Collab : Collaborators}.

Lemma return_to_decode_queue_requeued request_id data slot
    (s : DecodeScheduler) :
  cache_seq_id data = Some slot →
  return_to_decode_queue request_id data s
  = Ok (requeued request_id data slot s).
Proof.
  intros Hslot. unfold return_to_decode_queue, requeued. rewrite Hslot.
  cbn. by destruct (release (world s) data).
Qed.

(** The three outcomes of an iteration. *)
Lemma reserve_step_success request_id rest (s : DecodeScheduler) context w :
  od_get (active_batch s) request_id = Some context →
  prefetch (world s) context (reservation_steps s context) = (true, w) →
  reserve_step request_id rest s
  = Ok (inl (rest,
             record_call
               (CallPrefetch request_id (reservation_steps s context) true)
               (with_world w s))).
Proof.
  intros Hget Hpre. unfold reserve_step. rewrite Hget.
  fold (reservation_steps s context). by rewrite Hpre.
Qed.

Lemma reserve_step_alone request_id (s : DecodeScheduler) context w slot :
  od_get (active_batch s) request_id = Some context →
  prefetch (world s) context (reservation_steps s context) = (false, w) →
  cache_seq_id context = Some slot →
  reserve_step request_id [] s
  = Ok (inr (evicted request_id context slot
               (after_failed_prefetch request_id context w s))).
Proof.
  intros Hget Hpre Hslot. unfold reserve_step. rewrite Hget.
  fold (reservation_steps s context). rewrite Hpre. cbn [last].
  fold (after_failed_prefetch request_id context w s).
  by rewrite (return_to_decode_queue_requeued _ _ slot).
Qed.

Lemma reserve_step_newest request_id rest newest (s : DecodeScheduler)
    context w newest_context slot :
  od_get (active_batch s) request_id = Some context →
  prefetch (world s) context (reservation_steps s context) = (false, w) →
  last rest = Some newest →
  od_get (active_batch s) newest = Some newest_context →
  cache_seq_id newest_context = Some slot →
  reserve_step request_id rest s
  = Ok (inl (request_id :: removelast rest,
             evicted newest newest_context slot
               (after_failed_prefetch request_id context w s))).
Proof.
  intros Hget Hpre Hlast Hnew Hslot. unfold reserve_step. rewrite Hget.
  fold (reservation_steps s context). rewrite Hpre, Hlast.
  fold (after_failed_prefetch request_id context w s).
  change (active_batch (after_failed_prefetch request_id context w s))
    with (active_batch s).
  rewrite Hnew.
  by rewrite (return_to_decode_queue_requeued _ _ slot).
Qed.

Lemma od_del_last (d : Batch) (l : list string) (k : string) :
  od_keys d = l ++ [k] → k ∉ l → od_keys (od_del d k) = l.
Proof.
  unfold od_keys. revert l. induction d as [|[k0 v0] d IH]; intros l; cbn.
  - by destruct l.
  - destruct l as [|k1 l]; cbn.
    + intros [= -> Hd] _. rewrite decide_True by done.
      by destruct d.
    + intros [= -> Hd]. rewrite not_elem_of_cons. intros [Hne Hk].
      rewrite decide_False by done. cbn. f_equal. by apply IH.
Qed.

Lemma od_del_Forall (P : string * InputContext → Prop) (d : Batch) k :
  Forall P d → Forall P (od_del d k).
Proof.
  induction 1 as [|[k0 v0] d HP Hd IH]; cbn; [constructor|].
  destruct (decide (k0 = k)); [done|]. by constructor.
Qed.

Lemma reserve_inv_front confirmed request_id rest (s : DecodeScheduler) :
  reserve_inv confirmed (request_id :: rest) s →
  ∃ context slot,
    od_get (active_batch s) request_id = Some context
    ∧ cache_seq_id context = Some slot.
Proof.
  intros (Hkeys & Hnd & Hall).
  destruct (od_get_is_Some (active_batch s) request_id) as [context Hget].
  { rewrite Hkeys. apply elem_of_app. right. apply list_elem_of_here. }
  apply od_get_elem_of in Hget as Hin.
  unfold all_assigned in Hall. rewrite Forall_forall in Hall.
  destruct (Hall _ Hin) as [slot Hslot]. eauto.
Qed.

Lemma reserve_inv_newest confirmed request_id rest newest
    (s : DecodeScheduler) :
  reserve_inv confirmed (request_id :: rest) s →
  last rest = Some newest →
  ∃ newest_context slot,
    od_get (active_batch s) newest = Some newest_context
    ∧ cache_seq_id newest_context = Some slot
    ∧ newest ≠ request_id
    ∧ last (od_keys (active_batch s)) = Some newest.
Proof.
  intros (Hkeys & Hnd & Hall) [rest' ->]%last_Some.
  destruct (od_get_is_Some (active_batch s) newest) as [context Hget].
  { rewrite Hkeys. set_solver. }
  apply od_get_elem_of in Hget as Hin.
  unfold all_assigned in Hall. rewrite Forall_forall in Hall.
  destruct (Hall _ Hin) as [slot Hslot].
  exists context, slot. split_and!; [done|done| |].
  - rewrite Hkeys in Hnd. apply NoDup_app in Hnd as (_ & _ & Hnd).
    apply NoDup_cons in Hnd as [Hnotin _]. set_solver.
  - rewrite Hkeys.
    replace (confirmed ++ request_id :: rest' ++ [newest])
      with ((confirmed ++ request_id :: rest') ++ [newest])
      by by rewrite <- app_assoc.
    apply last_snoc.
Qed.

Lemma reserve_inv_confirm confirmed request_id rest
    (s s1 : DecodeScheduler) :
  reserve_inv confirmed (request_id :: rest) s →
  active_batch s1 = active_batch s →
  reserve_inv (confirmed ++ [request_id]) rest s1.
Proof.
  intros (Hkeys & Hnd & Hall) Heq. unfold reserve_inv. rewrite Heq.
  split_and!; [|done|done]. by rewrite Hkeys, <- app_assoc.
Qed.

Lemma reserve_inv_evict_newest confirmed request_id rest newest
    (s s1 : DecodeScheduler) :
  reserve_inv confirmed (request_id :: rest) s →
  last rest = Some newest →
  active_batch s1 = od_del (active_batch s) newest →
  reserve_inv confirmed (request_id :: removelast rest) s1.
Proof.
  intros (Hkeys & Hnd & Hall) [rest' ->]%last_Some Heq.
  rewrite removelast_last. unfold reserve_inv. rewrite Heq.
  assert (Hk : od_keys (od_del (active_batch s) newest)
               = confirmed ++ request_id :: rest').
  { apply od_del_last.
    - rewrite Hkeys. by rewrite <- app_assoc.
    - rewrite Hkeys in Hnd.
      replace (confirmed ++ request_id :: rest' ++ [newest])
        with ((confirmed ++ request_id :: rest') ++ [newest]) in Hnd
        by by rewrite <- app_assoc.
      apply NoDup_app in Hnd as (_ & Hdisj & _).
      intros Hin. apply (Hdisj _ Hin). apply list_elem_of_here. }
  split_and!; [done| |by apply od_del_Forall].
  rewrite Hk. rewrite Hkeys in Hnd.
  replace (confirmed ++ request_id :: rest' ++ [newest])
    with ((confirmed ++ request_id :: rest') ++ [newest]) in Hnd
    by by rewrite <- app_assoc.
  by apply NoDup_app in Hnd as (? & _ & _).
Qed.

(** What an iteration does from a loop state that satisfies the
    invariant: it never raises, and its result is one of the three
    outcomes. *)
Lemma reserve_step_cases confirmed request_id rest (s : DecodeScheduler) :
  reserve_inv confirmed (request_id :: rest) s →
  ∃ context slot ok w,
    od_get (active_batch s) request_id = Some context
    ∧ cache_seq_id context = Some slot
    ∧ prefetch (world s) context (reservation_steps s context) = (ok, w)
    ∧ if ok then
        reserve_step request_id rest s
        = Ok (inl (rest,
                   record_call
                     (CallPrefetch request_id (reservation_steps s context)
                        true)
                     (with_world w s)))
      else
        match last rest with
        | None =>
            reserve_step request_id rest s
            = Ok (inr (evicted request_id context slot
                         (after_failed_prefetch request_id context w s)))
        | Some newest =>
            ∃ newest_context newest_slot,
              od_get (active_batch s) newest = Some newest_context
              ∧ cache_seq_id newest_context = Some newest_slot
              ∧ newest ≠ request_id
              ∧ last (od_keys (active_batch s)) = Some newest
              ∧ reserve_step request_id rest s
                = Ok (inl (request_id :: removelast rest,
                           evicted newest newest_context newest_slot
                             (after_failed_prefetch request_id context w s)))
        end.
Proof.
  intros Hinv.
  destruct (reserve_inv_front _ _ _ _ Hinv) as (context & slot & Hget & Hslot).
  destruct (prefetch (world s) context (reservation_steps s context))
    as [ok w] eqn:Hpre.
  exists context, slot, ok, w. split_and!; [done..|].
  destruct ok; [by apply reserve_step_success|].
  destruct (last rest) as [newest|] eqn:Hlast.
  - destruct (reserve_inv_newest _ _ _ _ _ Hinv Hlast)
      as (nc & nslot & Hnget & Hnslot & Hne & Hl).
    exists nc, nslot. split_and!; [done..|].
    by apply reserve_step_newest.
  - apply last_None in Hlast as ->. by apply reserve_step_alone.
Qed.


Lemma od_get_del_eq (d : Batch) k :
  NoDup (od_keys d) → od_get (od_del d k) k = None.
Proof.
  unfold od_keys. induction d as [|[k0 v0] d IH]; cbn; [done|].
  intros [Hnotin Hnd]%NoDup_cons.
  destruct (decide (k0 = k)) as [->|Hne].
  - by apply od_get_None.
  - cbn. rewrite decide_False by done. by apply IH.
Qed.


(** Loop rule: an invariant [P] of the iterations that never raise and
    shrink the working list gives a result in [Q] once the fuel covers the
    working list. *)
Lemma reserve_loop_rule (P : list string → DecodeScheduler → Prop)
    (Q : DecodeScheduler → Prop) :
  (∀ s, P [] s → Q s) →
  (∀ r rest s, P (r :: rest) s →
     ∃ x, reserve_step r rest s = Ok x
          ∧ match x with
            | inl (c', s') => P c' s' ∧ (length c' ≤ length rest)%nat
            | inr s' => Q s'
            end) →
  ∀ fuel cands s, P cands s → (length cands ≤ fuel)%nat →
    ∃ s', reserve_loop fuel cands s = Ok s' ∧ Q s'.
Proof.
  intros Hnil Hstep fuel. induction fuel as [|fuel IH]; intros cands s HP Hlen.
  - destruct cands; [|cbn in Hlen; lia]. cbn. eauto.
  - destruct cands as [|r rest]; cbn [reserve_loop]; [eauto|].
    destruct (Hstep _ _ _ HP) as (x & -> & Hx). cbn.
    destruct x as [[c' s1]|s1]; [|eauto].
    destruct Hx as [HP' Hlen']. apply IH; [done|]. cbn in Hlen. lia.
Qed.

(** Loop rule for the runs that return. *)
Lemma reserve_loop_partial_rule (P : list string → DecodeScheduler → Prop)
    (Q : DecodeScheduler → Prop) :
  (∀ s, P [] s → Q s) →
  (∀ r rest s x, P (r :: rest) s → reserve_step r rest s = Ok x →
     match x with
     | inl (c', s') => P c' s'
     | inr s' => Q s'
     end) →
  ∀ fuel cands s s', P cands s → reserve_loop fuel cands s = Ok s' → Q s'.
Proof.
  intros Hnil Hstep fuel.
  induction fuel as [|fuel IH]; intros cands s s' HP.
  - destruct cands; cbn; [|done]. intros [= <-]. auto.
  - destruct cands as [|r rest]; cbn [reserve_loop].
    { intros [= <-]. auto. }
    destruct (reserve_step r rest s) as [x|e] eqn:Hx; [|done]. cbn.
    specialize (Hstep _ _ _ _ HP Hx).
    destruct x as [[c' s1]|s1]; [by apply IH|]. by intros [= <-].
Qed.

Lemma count_calls_app (p : Call → bool) (l1 l2 : list Call) :
  count_calls p (l1 ++ l2) = (count_calls p l1 + count_calls p l2)%nat.
Proof. unfold count_calls. by rewrite List.filter_app, length_app. Qed.

Lemma length_removelast_last {A} (l : list A) x :
  last l = Some x → length (removelast l) = pred (length l).
Proof.
  intros [l' ->]%last_Some. rewrite removelast_last, length_app. cbn. lia.
Qed.

(** Every iteration that stays in the loop hands over a working list
    shorter by one. *)
Lemma reserve_step_shrinks request_id rest (s : DecodeScheduler) c' s' :
  reserve_step request_id rest s = Ok (inl (c', s')) →
  length c' = length rest.
Proof.
  unfold reserve_step.
  destruct (od_get (active_batch s) request_id) as [context|]; [|done].
  destruct (prefetch _ _ _) as [[] w]; [by intros [= <- _]|].
  destruct (last rest) as [newest|] eqn:Hlast.
  - destruct (od_get _ newest) as [nc|]; [|done].
    destruct (return_to_decode_queue _ _ _); [|done].
    intros [= <- _]. cbn. rewrite (length_removelast_last _ _ Hlast).
    apply last_Some in Hlast as [l' ->]. rewrite length_app. cbn. lia.
  - destruct (return_to_decode_queue _ _ _); done.
Qed.

(** Fuel beyond the length of the working list changes nothing, so
    [reserve_phase] never ends in [Diverged]. *)
Lemma reserve_loop_fuel (fuel1 : nat) :
  ∀ (fuel2 : nat) cands (s : DecodeScheduler),
    (length cands ≤ fuel1)%nat → (length cands ≤ fuel2)%nat →
    reserve_loop fuel1 cands s = reserve_loop fuel2 cands s.
Proof.
  induction fuel1 as [|fuel1 IH]; intros fuel2 cands s H1 H2.
  - destruct cands; [|cbn in H1; lia]. by destruct fuel2.
  - destruct cands as [|r rest]; [by destruct fuel2|].
    destruct fuel2 as [|fuel2]; [cbn in H2; lia|]. cbn [reserve_loop].
    destruct (reserve_step r rest s) as [[[c' s']|s']|e] eqn:Hstep; [|done..].
    cbn. apply reserve_step_shrinks in Hstep. cbn in H1, H2.
    apply IH; lia.
Qed.




(** The log and the frame of one iteration, with no assumption on the
    loop state. *)
Lemma reserve_step_calls request_id rest (s : DecodeScheduler) x :
  reserve_step request_id rest s = Ok x →
  let s' := match x with inl (_, s') => s' | inr s' => s' end in
  (∃ n, calls s' = calls s ++ [CallPrefetch request_id n true]
        ∧ x = inl (rest, s')
        ∧ active_batch s' = active_batch s
        ∧ available_cache_indices s' = available_cache_indices s
        ∧ preempted_decode s' = preempted_decode s)
  ∨ (∃ n more, calls s' = calls s ++ CallPrefetch request_id n false :: more).
Proof.
  unfold reserve_step.
  destruct (od_get (active_batch s) request_id) as [context|]; [|done].
  destruct (prefetch _ _ _) as [[] w].
  { intros [= <-]. left. eexists. by split_and!. }
  unfold return_to_decode_queue.
  destruct (last rest) as [newest|].
  - destruct (od_get _ newest) as [nc|]; [|done].
    destruct (cache_seq_id nc); [|done]. cbn.
    destruct (release w nc). intros [= <-]. right. cbn.
    eexists _, [_]. by rewrite <- app_assoc.
  - destruct (cache_seq_id context); [|done]. cbn.
    destruct (release w context). intros [= <-]. right. cbn.
    eexists _, [_]. by rewrite <- app_assoc.
Qed.

(** C10.  When the reservation phase returns and every prefetch call it
    logged succeeded, it released nothing: the active batch, the pool of
    free slots and the preempted queue are the ones it started with. *)
Theorem reserve_phase_all_prefetch_succeed (s s' : DecodeScheduler)
    (new : list Call) :
  reserve_phase s = Ok s' →
  calls s' = calls s ++ new →
  (∀ k n ok, CallPrefetch k n ok ∈ new → ok = true) →
  active_batch s' = active_batch s
  ∧ available_cache_indices s' = available_cache_indices s
  ∧ preempted_decode s' = preempted_decode s
  ∧ count_calls is_release new = 0%nat.
Proof.
  intros Hrun Hcalls Hall.
  set (Q := λ s1 : DecodeScheduler, ∃ new1,
    calls s1 = calls s ++ new1
    ∧ ((∀ k n ok, CallPrefetch k n ok ∈ new1 → ok = true) →
       active_batch s1 = active_batch s
       ∧ available_cache_indices s1 = available_cache_indices s
       ∧ preempted_decode s1 = preempted_decode s
       ∧ count_calls is_release new1 = 0%nat)).
  assert (HQ : Q s').
  { apply (reserve_loop_partial_rule (λ _, Q) Q) with (4 := Hrun).
    - done.
    - intros r rest s1 x (new1 & Hc1 & Hframe) Hstep.
      apply reserve_step_calls in Hstep as Hlog.
      assert (Q (match x with inl (_, s2) => s2 | inr s2 => s2 end)) as HQ.
      { destruct Hlog as [(n & Hc & _ & Ha & Hf & Hp)|(n & more & Hc)].
        - exists (new1 ++ [CallPrefetch r n true]). split.
          { by rewrite Hc, Hc1, <- app_assoc. }
          intros Hok. rewrite Ha, Hf, Hp, count_calls_app.
          destruct Hframe as (-> & -> & -> & ->); [|done].
          intros k m ok Hin. apply (Hok k m). apply elem_of_app. by left.
        - exists (new1 ++ CallPrefetch r n false :: more). split.
          { by rewrite Hc, Hc1, <- app_assoc. }
          intros Hok. specialize (Hok r n false). discriminate Hok.
          apply elem_of_app. right. apply list_elem_of_here. }
      by destruct x as [[c' s2]|s2].
    - exists []. split; [by rewrite app_nil_r|done]. }
  destruct HQ as (new1 & Hc1 & Hframe).
  rewrite Hcalls in Hc1. apply app_inv_head in Hc1 as <-. by apply Hframe.
Qed.

End ReservationProofs.

(** ** Response stream construction *)

Section StreamProofs.
Context `{Collab : Collaborators}.

Lemma cell_pad (frames : list Frame) (n i : nat) (k : string) :
  cell (frames ++ replicate n ∅) i k = cell frames i k.
Proof.
  unfold cell. destruct (decide (i < length frames)%nat) as [Hlt|Hge].
  - by rewrite lookup_app_l.
  - rewrite lookup_app_r by lia. rewrite (lookup_ge_None_2 frames) by lia.
    destruct (replicate n ∅ !! (i - length frames)%nat) as [f|] eqn:Hf;
      [|done].
    apply lookup_replicate in Hf as [-> _]. cbn. apply lookup_empty.
Qed.

Lemma frame_assign_spec (frames : list Frame) idx request_id v :
  (idx < length frames)%nat →
  ∃ frames',
    frame_assign frames idx request_id v = Ok frames'
    ∧ length frames' = length frames
    ∧ ∀ i k, cell frames' i k
             = if bool_decide (i = idx ∧ k = request_id) then Some v
               else cell frames i k.
Proof.
  intros Hlt. unfold frame_assign.
  destruct (lookup_lt_is_Some_2 frames idx Hlt) as [frame Hframe].
  rewrite Hframe. eexists. split_and!; [done|by rewrite length_insert|].
  intros i k. unfold cell. case_bool_decide as Hik.
  - destruct Hik as [-> ->]. rewrite list_lookup_insert_eq by done. cbn.
    apply lookup_insert_eq.
  - destruct (decide (i = idx)) as [->|Hne].
    + rewrite list_lookup_insert_eq by done. rewrite Hframe. cbn.
      apply lookup_insert_ne. intros ->. by apply Hik.
    + by rewrite list_lookup_insert_ne.
Qed.

Lemma assign_tokens_spec request_id (toks : list Tok) :
  ∀ token_idx (frames : list Frame),
    (token_idx + length toks ≤ length frames)%nat →
    ∃ frames',
      assign_tokens request_id token_idx toks frames = Ok frames'
      ∧ length frames' = length frames
      ∧ ∀ i k, cell frames' i k
               = if bool_decide (k = request_id ∧ token_idx ≤ i
                                 ∧ i < token_idx + length toks)%nat
                 then Token <$> toks !! (i - token_idx)%nat
                 else cell frames i k.
Proof.
  induction toks as [|t toks IH]; intros token_idx frames Hlen; cbn.
  - exists frames. split_and!; [done..|]. intros i k.
    rewrite bool_decide_eq_false_2; [done|lia].
  - cbn in Hlen.
    destruct (frame_assign_spec frames token_idx request_id (Token t))
      as (frames1 & -> & Hlen1 & Hcell1); [lia|]. cbn.
    destruct (IH (S token_idx) frames1) as (frames2 & -> & Hlen2 & Hcell2);
      [lia|].
    exists frames2. split_and!; [done|lia|]. intros i k.
    rewrite Hcell2, Hcell1.
    repeat case_bool_decide; destruct_and?; simplify_eq; try done;
      try (exfalso; intuition (try lia; congruence)).
    + replace (i - token_idx)%nat with (S (i - S token_idx)) by lia. done.
    + by rewrite Nat.sub_diag.
    + exfalso. destruct (decide (i = token_idx)) as [->|Hne].
      * match goal with
        | H : ¬ (_ = _ ∧ _ = _) |- _ => apply H; by split
        end.
      * match goal with
        | H : ¬ (_ = _ ∧ (_ ≤ _)%nat ∧ _) |- _ =>
            apply H; split_and!; [done|lia..]
        end.
Qed.

Lemma stream_one_spec (frames : list Frame) request_id
    (response : TextGenerationResponse) :
  ∃ frames',
    stream_one frames request_id response = Ok frames'
    ∧ length frames' = Nat.max (length frames) (frames_needed response)
    ∧ ∀ i k, cell frames' i k
             = if bool_decide (k = request_id)
               then match expected_cell response i with
                    | Some v => Some v
                    | None => cell frames i k
                    end
               else cell frames i k.
Proof.
  unfold stream_one. fold (frames_needed response).
  set (stream1 := frames ++ replicate (frames_needed response - length frames) ∅).
  assert (Hlen1 : length stream1
                  = Nat.max (length frames) (frames_needed response)).
  { unfold stream1. rewrite length_app, length_replicate. lia. }
  assert (Hneed : frames_needed response
    = (length (tokens response) + (if is_done response then 1 else 0))%nat)
    by done.
  destruct (assign_tokens_spec request_id (tokens response) 0 stream1)
    as (stream2 & -> & Hlen2 & Hcell2); [cbn; lia|]. cbn.
  assert (Hcell2' : ∀ i k, cell stream2 i k
    = if bool_decide (k = request_id ∧ i < length (tokens response))%nat
      then Token <$> tokens response !! i else cell frames i k).
  { intros i k. rewrite Hcell2. unfold stream1. rewrite cell_pad, Nat.sub_0_r.
    cbn. repeat case_bool_decide; destruct_and?; try done.
    - exfalso. intuition lia.
    - exfalso. intuition lia. }
  destruct (is_done response) eqn:Hdone.
  - destruct (frame_assign_spec stream2 (length (tokens response))
                request_id STOP_STREAM) as (stream3 & -> & Hlen3 & Hcell3);
      [lia|].
    exists stream3. split_and!; [done|lia|]. intros i k.
    rewrite Hcell3, Hcell2'. unfold expected_cell. rewrite Hdone. cbn.
    destruct (decide (k = request_id)) as [->|Hk].
    2:{ rewrite !bool_decide_eq_false_2; first [done | by intros [??]]. }
    rewrite (bool_decide_eq_true_2 (request_id = request_id)) by done.
    destruct (tokens response !! i) as [t|] eqn:Ht.
    + apply lookup_lt_Some in Ht as Hlt.
      rewrite bool_decide_eq_false_2 by (intros [? _]; lia).
      by rewrite bool_decide_eq_true_2.
    + apply lookup_ge_None in Ht as Hge.
      destruct (decide (i = length (tokens response))) as [->|Hne].
      * by rewrite !bool_decide_eq_true_2.
      * rewrite (bool_decide_eq_false_2 (i = _ ∧ _)) by (intros [? _]; done).
        rewrite (bool_decide_eq_false_2 (i = _)) by done.
        rewrite bool_decide_eq_false_2; [done|intros [_ ?]; lia].
  - exists stream2. split_and!; [done|lia|]. intros i k.
    rewrite Hcell2'. unfold expected_cell. rewrite Hdone. cbn.
    destruct (decide (k = request_id)) as [->|Hk].
    2:{ rewrite !bool_decide_eq_false_2; first [done | by intros [??]]. }
    rewrite (bool_decide_eq_true_2 (request_id = request_id)) by done.
    destruct (tokens response !! i) as [t|] eqn:Ht.
    + apply lookup_lt_Some in Ht as Hlt. by rewrite bool_decide_eq_true_2.
    + apply lookup_ge_None in Ht as Hge.
      rewrite bool_decide_eq_false_2; [done|intros [_ ?]; lia].
Qed.

Lemma stream_loop_spec (r : Responses) :
  ∀ frames0 : list Frame,
    NoDup (od_keys r) →
    ∃ frames,
      stream_loop r frames0 = Ok frames
      ∧ length frames
        = Nat.max (length frames0) (frame_count_as_documented r)
      ∧ ∀ i k, cell frames i k
               = match od_get r k with
                 | Some response =>
                     match expected_cell response i with
                     | Some v => Some v
                     | None => cell frames0 i k
                     end
                 | None => cell frames0 i k
                 end.
Proof.
  unfold frame_count_as_documented, od_keys.
  induction r as [|[k0 response0] r IH]; intros frames0 Hnd; cbn.
  - exists frames0. split_and!; [done|lia|done].
  - apply NoDup_cons in Hnd as [Hnotin Hnd]. cbn [fst] in Hnotin.
    destruct (stream_one_spec frames0 k0 response0)
      as (frames1 & -> & Hlen1 & Hcell1). cbn.
    destruct (IH frames1 Hnd) as (frames & -> & Hlen & Hcell).
    exists frames. split_and!; [done|lia|]. intros i k.
    rewrite Hcell, Hcell1. destruct (decide (k0 = k)) as [->|Hne].
    + apply od_get_None in Hnotin. rewrite Hnotin.
      by rewrite bool_decide_eq_true_2.
    + rewrite bool_decide_eq_false_2 by done. done.
Qed.

Lemma od_get_NoDup {V} (d : list (string * V)) k v :
  NoDup (od_keys d) → (k, v) ∈ d → od_get d k = Some v.
Proof.
  unfold od_keys. induction d as [|[k0 v0] d IH]; cbn.
  - intros _ Hin. by apply not_elem_of_nil in Hin.
  - intros [Hnotin Hnd]%NoDup_cons [Heq|Hin]%elem_of_cons.
    + injection Heq as -> ->. by rewrite decide_True.
    + rewrite decide_False; [by apply IH|].
      intros ->. apply Hnotin. by apply (list_elem_of_fmap_2 fst) in Hin.
Qed.

(** C4 (as amended).  For a non-empty response set, one message is
    appended to the response socket; its frame sequence has as many frames
    as the largest number a request needs (its tokens, plus one when it
    terminated), and never fewer than one; the i-th token of a request is
    in frame i under its identifier, a terminated request has the stop
    sentinel in the frame after its last token, and a request is absent
    from every frame from the number of frames it needs on, so a request
    that goes on is absent from its token count on.  For an empty or
    missing response set the socket is left as it is. *)
Theorem stream_responses_to_frontend_frames (r : Responses)
    (s : DecodeScheduler) :
  NoDup (od_keys r) →
  r ≠ [] →
  ∃ frames,
    stream_responses_to_frontend (Some r) s
    = Ok (push_to_response_socket frames s)
    ∧ response_push_socket (push_to_response_socket frames s)
      = response_push_socket s ++ [frames]
    ∧ length frames = Nat.max 1 (frame_count_as_documented r)
    ∧ (∀ request_id response, (request_id, response) ∈ r →
         (∀ i t, tokens response !! i = Some t →
            cell frames i request_id = Some (Token t))
         ∧ (is_done response = true →
            cell frames (length (tokens response)) request_id
            = Some STOP_STREAM)
         ∧ (∀ i, (frames_needed response ≤ i)%nat →
            cell frames i request_id = None)
         ∧ (is_done response = false →
            ∀ i, (length (tokens response) ≤ i)%nat →
              cell frames i request_id = None))
    ∧ stream_responses_to_frontend (Some []) s = Ok s
    ∧ stream_responses_to_frontend None s = Ok s.
Proof.
  intros Hnd Hne.
  destruct (stream_loop_spec r [∅] Hnd) as (frames & Hrun & Hlen & Hcell).
  exists frames. split_and!; [|done|done| |done|done].
  { unfold stream_responses_to_frontend. destruct r; [done|].
    by rewrite Hrun. }
  assert (Hempty : ∀ i k, cell [∅] i k = (None : option TextResponse)).
  { intros [|i] k; [apply lookup_empty|done]. }
  intros request_id response Hin.
  assert (Hc : ∀ i, cell frames i request_id = expected_cell response i).
  { intros i. rewrite Hcell, (od_get_NoDup _ _ _ Hnd Hin), Hempty.
    by destruct (expected_cell response i). }
  assert (Hbeyond : ∀ i, (frames_needed response ≤ i)%nat →
            cell frames i request_id = None).
  { intros i. rewrite Hc. unfold expected_cell, frames_needed. intros Hi.
    rewrite lookup_ge_None_2 by lia.
    destruct (is_done response); [|done].
    rewrite bool_decide_eq_false_2; [done|lia]. }
  split_and!.
  - intros i t Ht. rewrite Hc. unfold expected_cell. by rewrite Ht.
  - intros Hdone. rewrite Hc. unfold expected_cell.
    rewrite lookup_ge_None_2 by lia. rewrite Hdone.
    by rewrite bool_decide_eq_true_2.
  - done.
  - intros Hdone i Hi. apply Hbeyond. unfold frames_needed.
    rewrite Hdone. lia.
Qed.

End StreamProofs.

Section StreamExamples.
#[local] Existing Instance Scripted.carriers.
#[local] Existing Instance Scripted.collaborators.

(** A request that produced nothing and goes on: the documented frame
    count is 0, the message sent has one (empty) frame. *)
Lemma stream_responses_to_frontend_not_documented :
  stream_responses_to_frontend (Some silent_response) idle
  = Ok (push_to_response_socket [∅] idle)
  ∧ frame_count_as_documented silent_response = 0%nat
  ∧ ¬ (∃ frames,
         stream_responses_to_frontend (Some silent_response) idle
         = Ok (push_to_response_socket frames idle)
         ∧ length frames = frame_count_as_documented silent_response).
Proof.
  split_and!; [reflexivity | reflexivity |].
  intros (frames & Hrun & Hlen).
  injection Hrun as <-. discriminate Hlen.
Qed.

Lemma stream_responses_to_frontend_frames_witness :
  NoDup (od_keys framing_responses)
  ∧ framing_responses ≠ []
  ∧ ∃ frames,
      stream_responses_to_frontend (Some framing_responses) idle
      = Ok (push_to_response_socket frames idle)
      ∧ length frames = 5%nat
      ∧ cell frames 3 "A" = Some STOP_STREAM
      ∧ cell frames 4 "A" = None
      ∧ cell frames 4 "B" = Some (Token 24).
Proof.
  assert (Hnd : NoDup (od_keys framing_responses)).
  { compute_done. }
  assert (Hne : framing_responses ≠ []) by discriminate.
  split_and!; [done..|].
  destruct (stream_responses_to_frontend_frames framing_responses idle Hnd Hne)
    as (frames & Hrun & _ & Hlen & Hplace & _).
  destruct (Hplace "A"%string _ ltac:(apply list_elem_of_here))
    as (_ & HstopA & HbeyondA & _).
  destruct (Hplace "B"%string _
              ltac:(apply list_elem_of_further, list_elem_of_here))
    as (HtokB & _).
  exists frames. split_and!; [done|done| | |].
  - by apply HstopA.
  - apply HbeyondA. cbn. lia.
  - by apply HtokB.
Defined.

End StreamExamples.

Section ReservationExamples.
#[local] Existing Instance Scripted.carriers.
#[local] Existing Instance Scripted.collaborators.

Lemma full_batch_NoDup script :
  NoDup (od_keys (active_batch (full_batch script))).
Proof. compute_done. Defined.

Lemma full_batch_assigned script :
  all_assigned (active_batch (full_batch script)).
Proof. repeat constructor; by eexists. Defined.




Lemma reserve_phase_all_prefetch_succeed_witness :
  ∃ s',
    reserve_phase (full_batch []) = Ok s'
    ∧ active_batch s' = active_batch (full_batch [])
    ∧ preempted_decode s' = [].
Proof.
  set (s' := record_call (CallPrefetch "r2" 10 true)
               (record_call (CallPrefetch "r1" 10 true) (full_batch []))).
  assert (Hrun : reserve_phase (full_batch []) = Ok s') by reflexivity.
  exists s'. split; [exact Hrun|].
  destruct (reserve_phase_all_prefetch_succeed (full_batch []) s'
              [CallPrefetch "r1" 10 true; CallPrefetch "r2" 10 true]
              Hrun eq_refl) as (Ha & _ & Hp & _); [|by split].
  intros k n ok [Heq|[Heq|Hin%elem_of_nil]%elem_of_cons]%elem_of_cons;
    [by injection Heq | by injection Heq | done].
Defined.

End ReservationExamples.

(** ** Termination reclamation *)

Section ReclamationProofs.
Context `{Collab : Collaborators}.

Lemma od_del_NoDup (d : Batch) k :
  NoDup (od_keys d) → NoDup (od_keys (od_del d k)).
Proof.
  unfold od_keys. induction d as [|[k0 v0] d IH]; cbn; [done|].
  intros [Hnotin Hnd]%NoDup_cons.
  destruct (decide (k0 = k)) as [->|Hne]; [done|]. cbn.
  apply NoDup_cons. split; [|by apply IH].
  intros (kc & Hk & Hin)%list_elem_of_fmap. apply Hnotin.
  apply list_elem_of_fmap. exists kc. split; [done|].
  clear -Hin. induction d as [|[k1 v1] d IH]; cbn in *; [done|].
  destruct (decide (k1 = k)).
  - by apply list_elem_of_further.
  - apply elem_of_cons in Hin as [->|Hin]; [apply list_elem_of_here|].
    apply list_elem_of_further. by apply IH.
Qed.

Lemma handle_terminated_step request_id response r context cache_id
    (s : DecodeScheduler) :
  is_done response = true →
  od_get (active_batch s) request_id = Some context →
  cache_seq_id context = Some cache_id →
  handle_terminated_loop ((request_id, response) :: r) s
  = handle_terminated_loop r (reclaimed request_id context cache_id s).
Proof.
  intros Hdone Hget Hslot. cbn [handle_terminated_loop].
  rewrite Hdone, Hget, Hslot. unfold reclaimed.
  by destruct (release (world s) context).
Qed.

Lemma handle_terminated_skip request_id response r (s : DecodeScheduler) :
  is_done response = false →
  handle_terminated_loop ((request_id, response) :: r) s
  = handle_terminated_loop r s.
Proof. intros Hdone. cbn [handle_terminated_loop]. by rewrite Hdone. Qed.

(** What the loop of [_handle_terminated_responses] leaves behind. *)
Lemma handle_terminated_loop_spec (r : Responses) :
  ∀ s : DecodeScheduler,
    NoDup (od_keys r) →
    NoDup (od_keys (active_batch s)) →
    (∀ request_id response,
       (request_id, response) ∈ r → is_done response = true →
       ∃ context cache_id,
         od_get (active_batch s) request_id = Some context
         ∧ cache_seq_id context = Some cache_id) →
    ∃ s' new,
      handle_terminated_loop r s = Ok s'
      ∧ calls s' = calls s ++ new
      ∧ NoDup (od_keys (active_batch s'))
      ∧ (∀ k, od_get (active_batch s') k
              = match od_get r k with
                | Some response =>
                    if is_done response then None
                    else od_get (active_batch s) k
                | None => od_get (active_batch s) k
                end)
      ∧ (∀ x, x ∈ available_cache_indices s → x ∈ available_cache_indices s')
      ∧ (∀ request_id response context cache_id,
           (request_id, response) ∈ r → is_done response = true →
           od_get (active_batch s) request_id = Some context →
           cache_seq_id context = Some cache_id →
           cache_id ∈ available_cache_indices s'
           ∧ CallRelease request_id context ∈ new)
      ∧ (∀ k, count_calls (is_release_of k) new
              = match od_get r k with
                | Some response => if is_done response then 1%nat else 0%nat
                | None => 0%nat
                end).
Proof.
  induction r as [|[k0 response0] r IH]; intros s Hndr Hnd Hin.
  { exists s, []. cbn. split_and!; try done. by rewrite app_nil_r.
    intros ???? Hel. by apply elem_of_nil in Hel. }
  unfold od_keys in Hndr. cbn in Hndr.
  apply NoDup_cons in Hndr as [Hk0 Hndr].
  assert (Hk0' : od_get r k0 = None) by by apply od_get_None.
  destruct (is_done response0) eqn:Hdone.
  - destruct (Hin k0 response0) as (context & cache_id & Hget & Hslot);
      [apply list_elem_of_here|done|].
    rewrite (handle_terminated_step _ _ _ _ _ _ Hdone Hget Hslot).
    destruct (IH (reclaimed k0 context cache_id s))
      as (s' & new & Hrun & Hcalls & Hnd' & Hact & Hav & Hrec & Hcount).
    { done. }
    { cbn. by apply od_del_NoDup. }
    { intros k response Hel Hd. cbn.
      rewrite od_get_del_ne;
        [by apply (Hin k response); [apply list_elem_of_further|]|].
      intros ->. apply Hk0. by apply (list_elem_of_fmap_2 fst) in Hel. }
    exists s', (CallRelease k0 context :: new). split_and!.
    + done.
    + rewrite Hcalls. cbn. by rewrite <- app_assoc.
    + done.
    + intros k. rewrite Hact. cbn. destruct (decide (k0 = k)) as [->|Hne].
      * rewrite Hk0', Hdone. by apply od_get_del_eq.
      * rewrite od_get_del_ne by done. done.
    + intros x Hx. apply Hav. cbn. apply elem_of_union. by right.
    + intros k response c x [Heq|Hel]%elem_of_cons Hd Hg Hs.
      * injection Heq as -> ->. rewrite Hget in Hg. injection Hg as <-.
        rewrite Hslot in Hs. injection Hs as <-.
        split; [|apply list_elem_of_here].
        apply Hav. cbn. apply elem_of_union. left. by apply elem_of_singleton.
      * assert (k ≠ k0) as Hne.
        { intros ->. apply Hk0. by apply (list_elem_of_fmap_2 fst) in Hel. }
        destruct (Hrec k response c x) as [Hx Hc]; [done|done| |done|].
        { cbn. by rewrite od_get_del_ne. }
        split; [done|by apply list_elem_of_further].
    + intros k. unfold count_calls in *. cbn.
      destruct (decide (k0 = k)) as [->|Hne].
      * rewrite bool_decide_eq_true_2 by done. cbn.
        specialize (Hcount k). rewrite Hk0' in Hcount.
        by rewrite Hcount, Hdone.
      * rewrite bool_decide_eq_false_2 by done. apply Hcount.
  - rewrite (handle_terminated_skip _ _ _ _ Hdone).
    destruct (IH s) as (s' & new & Hrun & Hcalls & Hnd' & Hact & Hav & Hrec
                        & Hcount).
    { done. }
    { done. }
    { intros k response Hel Hd. apply (Hin k response); [|done].
      by apply list_elem_of_further. }
    exists s', new. split_and!; [done..| | | |].
    + intros k. rewrite Hact. cbn. destruct (decide (k0 = k)) as [->|Hne].
      * by rewrite Hk0', Hdone.
      * done.
    + done.
    + intros k response c x [Heq|Hel]%elem_of_cons Hd Hg Hs.
      * injection Heq as -> ->. congruence.
      * by apply (Hrec k response c x).
    + intros k. rewrite Hcount. cbn. destruct (decide (k0 = k)) as [->|Hne].
      * by rewrite Hk0', Hdone.
      * done.
Qed.

Lemma same_but_forwarding_refl (s : DecodeScheduler) :
  same_but_forwarding s s.
Proof. by repeat split. Qed.

Lemma same_but_forwarding_trans (s1 s2 s3 : DecodeScheduler) :
  same_but_forwarding s1 s2 → same_but_forwarding s2 s3 →
  same_but_forwarding s1 s3.
Proof.
  unfold same_but_forwarding. intros ? ?. destruct_and!.
  split_and!; congruence.
Qed.

(** The forwarding loop with fuel for every request on the socket: it
    returns; the requests that were on the socket are, in order, the
    ones it forwarded, at most one that it pulled and lost to a failed
    push, and the ones it left; it touches nothing but the two sockets
    and the transport.  When the transport never fails it forwards
    everything. *)
Lemma forward_loop_spec (fuel : nat) :
  ∀ s : DecodeScheduler,
    (length (request_pull_socket s) ≤ fuel)%nat →
    ∃ s' forwarded lost,
      forward_loop fuel s = Ok s'
      ∧ request_pull_socket s = forwarded ++ lost ++ request_pull_socket s'
      ∧ prefill_push_socket s' = prefill_push_socket s ++ forwarded
      ∧ (length lost ≤ 1)%nat
      ∧ same_but_forwarding s s'
      ∧ (transport_reliable → lost = [] ∧ request_pull_socket s' = []).
Proof.
  assert (Hstop : ∀ (s : DecodeScheduler) w,
    (request_socket_fault (world s)).1 = true
    ∨ request_pull_socket s = [] →
    ∃ forwarded lost,
      request_pull_socket s
      = forwarded ++ lost ++ request_pull_socket (with_world w s)
      ∧ prefill_push_socket (with_world w s) = prefill_push_socket s ++ forwarded
      ∧ (length lost ≤ 1)%nat
      ∧ same_but_forwarding s (with_world w s)
      ∧ (transport_reliable →
         lost = [] ∧ request_pull_socket (with_world w s) = [])).
  { intros s w Hwhy. exists [], []. cbn. rewrite app_nil_r.
    split_and!; [done|done|lia|by repeat split|].
    intros [Hpull _]. destruct Hwhy as [Hf|He]; [|done].
    by rewrite Hpull in Hf. }
  induction fuel as [|fuel IH]; intros s Hlen.
  - destruct (request_pull_socket s) as [|r q] eqn:Hq; [|cbn in Hlen; lia].
    cbn. unfold pull_from_request_socket.
    destruct (request_socket_fault (world s)) as [fault w] eqn:Hf.
    destruct (Hstop s w) as (forwarded & lost & Hs); [by right|].
    rewrite Hq in Hs.
    destruct fault; cbn; rewrite ?Hq; by exists (with_world w s), forwarded, lost.
  - cbn [forward_loop]. unfold pull_from_request_socket.
    destruct (request_socket_fault (world s)) as [fault w] eqn:Hf.
    destruct fault.
    { destruct (Hstop s w) as (forwarded & lost & Hs); [left; by rewrite Hf|].
      by exists (with_world w s), forwarded, lost. }
    cbn [request_pull_socket with_world].
    destruct (request_pull_socket s) as [|[k c] q] eqn:Hq.
    { destruct (Hstop s w) as (forwarded & lost & Hs); [by right|].
      rewrite Hq in Hs. by exists (with_world w s), forwarded, lost. }
    unfold push_to_prefill_socket.
    cbn [world with_world with_request_pull_socket].
    destruct (prefill_socket_fault w k c) as [fault2 w2] eqn:Hf2.
    destruct fault2.
    + eexists _, [], [(k, c)]. cbn. rewrite app_nil_r.
      split_and!; [done|done|done|lia|by repeat split|].
      intros [_ Hpush]. specialize (Hpush w k c). by rewrite Hf2 in Hpush.
    + match goal with
      | |- ∃ s' _ _, forward_loop fuel ?s2 = _ ∧ _ =>
          destruct (IH s2) as (s' & forwarded & lost & Hrun & Hreq & Hpre
                               & Hlost & Hsame & Hrel)
      end.
      { cbn in *. lia. }
      cbn in Hreq, Hpre.
      exists s', ((k, c) :: forwarded), lost.
      split_and!; [done| | |done| |done].
      * by rewrite Hreq.
      * by rewrite Hpre, <- app_assoc.
      * eapply same_but_forwarding_trans; [|exact Hsame]. by repeat split.
Qed.

(** The same of [reserve_memory_and_send_to_prefill]. *)
Lemma reserve_memory_and_send_to_prefill_spec (s : DecodeScheduler) :
  let s' := reserve_memory_and_send_to_prefill s in
  forward_loop (length (request_pull_socket s)) s = Ok s'
  ∧ ∃ forwarded lost,
      request_pull_socket s = forwarded ++ lost ++ request_pull_socket s'
      ∧ prefill_push_socket s' = prefill_push_socket s ++ forwarded
      ∧ (length lost ≤ 1)%nat
      ∧ same_but_forwarding s s'
      ∧ (transport_reliable → lost = [] ∧ request_pull_socket s' = []).
Proof.
  unfold reserve_memory_and_send_to_prefill.
  destruct (forward_loop_spec (length (request_pull_socket s)) s)
    as (s' & forwarded & lost & -> & Hs); [done|].
  cbn zeta. split; [done|]. by exists forwarded, lost.
Qed.

(** Forwarding to prefill touches the request and prefill sockets
    only. *)
Lemma reserve_memory_and_send_to_prefill_frame (s : DecodeScheduler) :
  let s' := reserve_memory_and_send_to_prefill s in
  scheduler_config s' = scheduler_config s
  ∧ active_batch s' = active_batch s
  ∧ available_cache_indices s' = available_cache_indices s
  ∧ preempted_decode s' = preempted_decode s
  ∧ decode_pull_socket s' = decode_pull_socket s.
Proof.
  destruct (reserve_memory_and_send_to_prefill_spec s)
    as (_ & _ & _ & _ & _ & _ & Hsame & _).
  unfold same_but_forwarding in Hsame. cbn zeta. by destruct_and!.
Qed.

(** Streaming returns and touches the response socket only. *)
Lemma stream_responses_to_frontend_frame (r : Responses)
    (s : DecodeScheduler) :
  NoDup (od_keys r) →
  ∃ s', stream_responses_to_frontend (Some r) s = Ok s'
        ∧ scheduler_config s' = scheduler_config s
        ∧ active_batch s' = active_batch s
        ∧ available_cache_indices s' = available_cache_indices s
        ∧ preempted_decode s' = preempted_decode s
        ∧ decode_pull_socket s' = decode_pull_socket s.
Proof.
  intros Hnd. unfold stream_responses_to_frontend.
  destruct r as [|x r]; [by exists s|].
  destruct (stream_loop_spec (x :: r) [∅] Hnd) as (frames & -> & _).
  eexists. by split_and!.
Qed.

(** C6.  For a response set with one entry per request, whose terminated
    requests are members of the batch holding a slot, reclamation returns,
    and for every terminated request: the generator's release is called
    exactly once for it, with its context; it is no longer a key of the
    active batch; its slot is in the free set; and both still hold when
    the next cycle reaches its admission phase. *)
Theorem handle_terminated_responses_reclaims (r : Responses)
    (s : DecodeScheduler) :
  NoDup (od_keys r) →
  NoDup (od_keys (active_batch s)) →
  (∀ request_id response,
     (request_id, response) ∈ r → is_done response = true →
     ∃ context cache_id,
       od_get (active_batch s) request_id = Some context
       ∧ cache_seq_id context = Some cache_id) →
  ∃ s' new,
    _handle_terminated_responses (Some r) s = Ok s'
    ∧ calls s' = calls s ++ new
    ∧ ∀ request_id response context cache_id,
        (request_id, response) ∈ r → is_done response = true →
        od_get (active_batch s) request_id = Some context →
        cache_seq_id context = Some cache_id →
        count_calls (is_release_of request_id) new = 1%nat
        ∧ CallRelease request_id context ∈ new
        ∧ (request_id ∉ od_keys (active_batch s'))
        ∧ cache_id ∈ available_cache_indices s'
        ∧ ∀ a : Arrivals,
            ∃ s2,
              stream_responses_to_frontend (Some r) s' = Ok s2
              ∧ (request_id ∉ od_keys (active_batch (admission_entry a s2)))
              ∧ cache_id ∈ available_cache_indices (admission_entry a s2).
Proof.
  intros Hndr Hnd Hin.
  destruct (handle_terminated_loop_spec r s Hndr Hnd Hin)
    as (s' & new & Hrun & Hcalls & _ & Hact & _ & Hrec & Hcount).
  exists s', new. split_and!; [done|done|].
  intros request_id response context cache_id Hel Hdone Hget Hslot.
  destruct (Hrec _ _ _ _ Hel Hdone Hget Hslot) as [Hfree Hcall].
  assert (Habsent : request_id ∉ od_keys (active_batch s')).
  { apply od_get_None. rewrite Hact.
    by rewrite (od_get_NoDup _ _ _ Hndr Hel), Hdone. }
  split_and!; [|done|done|done|].
  - rewrite Hcount. by rewrite (od_get_NoDup _ _ _ Hndr Hel), Hdone.
  - intros a.
    destruct (stream_responses_to_frontend_frame r s' Hndr)
      as (s2 & Hstream & _ & Ha2 & Hf2 & _).
    exists s2. split; [done|].
    unfold admission_entry.
    destruct (reserve_memory_and_send_to_prefill_frame
                (record_call CallBeat
                   (record_call (CallIsCanceled false) (deliver a s2))))
      as (_ & -> & -> & _).
    cbn. by rewrite Ha2, Hf2.
Qed.

End ReclamationProofs.

(** ** Slot conservation *)

Section SlotProofs.
Context `{Collab : Collaborators}.










Lemma set_pop_Some (X : gset Z) :
  X ≠ ∅ → ∃ x, set_pop X = Some (x, X ∖ {[x]}) ∧ x ∈ X.
Proof.
  intros Hne. unfold set_pop. destruct (elements X) as [|x l] eqn:Hel.
  - apply elements_empty_inv in Hel. by apply leibniz_equiv in Hel.
  - exists x. split; [done|]. apply elem_of_elements. rewrite Hel.
    apply list_elem_of_here.
Qed.












Lemma slot_partition_count (s : DecodeScheduler) :
  slot_partition s →
  (size (available_cache_indices s) + length (claimed (active_batch s))
   = Z.to_nat (max_batch_size_tg (scheduler_config s)))%nat.
Proof. by intros (? & _). Qed.

Lemma slot_partition_capacity (s : DecodeScheduler) :
  slot_partition s →
  (length (active_batch s)
   ≤ Z.to_nat (max_batch_size_tg (scheduler_config s)))%nat.
Proof. by intros (_ & _ & _ & _ & _ & _ & _ & ?). Qed.

End SlotProofs.

Section SlotExamples.
#[local] Existing Instance Scripted.carriers.
#[local] Existing Instance Scripted.collaborators.






Lemma handle_terminated_responses_reclaims_witness :
  ∃ s' new,
    _handle_terminated_responses (Some r1_done) (full_batch []) = Ok s'
    ∧ calls s' = calls (full_batch []) ++ new
    ∧ count_calls (is_release_of "r1") new = 1%nat
    ∧ ("r1"%string ∉ od_keys (active_batch s'))
    ∧ 0 ∈ available_cache_indices s'.
Proof.
  assert (Hnd : NoDup (od_keys r1_done)) by compute_done.
  destruct (handle_terminated_responses_reclaims r1_done (full_batch [])
              Hnd (full_batch_NoDup [])) as (s' & new & Hrun & Hcalls & Hrec).
  { intros k response [Heq|[Heq|Hin%elem_of_nil]%elem_of_cons]%elem_of_cons
      Hdone; [| |done].
    - injection Heq as -> ->. by eexists _, _.
    - injection Heq as -> ->. discriminate Hdone. }
  destruct (Hrec "r1"%string _ (Scripted.ctx (Some 0) None 7) 0
              ltac:(apply list_elem_of_here) eq_refl eq_refl eq_refl)
    as (Hcount & _ & Habsent & Hfree & _).
  exists s', new. by split_and!.
Defined.


(** Nor can the condition on identifiers be dropped: when R1 arrives a
    second time while it is active, [self.active_batch[request_id] =
    context] replaces the member, and the slot of the replaced context is
    neither free nor claimed. *)
Remark run_repeated_identifier :
  ∃ s,
    run repeated_identifier (init (Scripted.config 2 10) []) = Ok s
    ∧ od_keys (active_batch s) = ["R1"%string]
    ∧ available_cache_indices s = ∅
    ∧ ¬ slot_partition s.
Proof.
  eexists. split; [vm_compute; reflexivity|].
  split_and!; [reflexivity | by vm_compute |].
  intros Hsize%slot_partition_count. vm_compute in Hsize.
  discriminate Hsize.
Qed.

End SlotExamples.

Section StickyExamples.
#[local] Existing Instance Scripted.carriers.
#[local] Existing Instance Sticky.collaborators.

(** Nor the condition on [release]: when a released context keeps its
    slot assignment, a preempted request comes back holding a slot that
    is free, and is admitted without drawing from the pool. *)
Remark run_sticky_release :
  ∃ s,
    run two_cycles (init (Scripted.config 2 10) [true; false]) = Ok s
    ∧ od_keys (active_batch s) = ["R1"; "R2"; "R3"]%string
    ∧ ¬ slot_partition s.
Proof.
  eexists. split; [vm_compute; reflexivity|].
  split; [reflexivity|].
  intros Hsize%slot_partition_capacity. vm_compute in Hsize. lia.
Qed.

End StickyExamples.

Section RogueExamples.
#[local] Existing Instance Scripted.carriers.
#[local] Existing Instance Rogue.collaborators.

(** Nor the condition on the generator: when it hands a context back
    without its slot assignment, the member holds no slot and its slot
    is neither free nor claimed. *)
Remark run_rogue_generator :
  ∃ s,
    run one_arrival (init (Scripted.config 2 10) []) = Ok s
    ∧ od_keys (active_batch s) = ["R1"%string]
    ∧ claimed (active_batch s) = []
    ∧ ¬ slot_partition s.
Proof.
  eexists. split; [vm_compute; reflexivity|].
  split_and!; [reflexivity | reflexivity |].
  intros Hsize%slot_partition_count. vm_compute in Hsize.
  discriminate Hsize.
Qed.

End RogueExamples.

(** * Further properties of the scheduler *)

(** ** Forwarding to prefill *)

Section ForwardingProofs.
Context `{Collab : Collaborators}.


End ForwardingProofs.

(** ** The admission phase *)

Section AdmissionExtras.
Context `{Collab : Collaborators}.

Lemma od_set_keys (d : Batch) k (v : InputContext) :
  od_keys (od_set d k v) = od_keys d
  ∨ od_keys (od_set d k v) = od_keys d ++ [k].
Proof.
  unfold od_keys. induction d as [|[k0 v0] d IH]; cbn; [by right|].
  destruct (decide (k0 = k)) as [->|Hne]; [by left|]. cbn.
  destruct IH as [->| ->]; [by left|by right].
Qed.

Lemma od_set_Forall (P : string * InputContext → Prop) (d : Batch) k v :
  Forall P d → P (k, v) → (∀ v', P (k, v') → P (k, v)) →
  Forall P (od_set d k v).
Proof.
  intros Hd Hkv _. induction Hd as [|[k0 v0] d HP Hd IH]; cbn.
  - by constructor.
  - destruct (decide (k0 = k)) as [->|Hne]; by constructor.
Qed.

(** One pass through the body of the admission loop: either both
    sources are empty and the loop is left, or the loop goes on after an
    [admission_step]. *)
Lemma admission_loop_step (fuel : nat) (s : DecodeScheduler) :
  available_cache_indices s ≠ ∅ →
  (preempted_decode s = [] ∧ decode_pull_socket s = []
   ∧ admission_loop (S fuel) s = Ok s)
  ∨ ∃ s1, admission_loop (S fuel) s = admission_loop fuel s1
          ∧ admission_step s s1.
Proof.
  intros Hne. cbn [admission_loop]. rewrite decide_False by done.
  destruct (set_pop_Some _ Hne) as (x & Hpop & Hx).
  unfold pull_from_decode_socket.
  destruct (preempted_decode s) as [|[k c] P'] eqn:HPs.
  - destruct (decode_pull_socket s) as [|[k c] D'] eqn:HDs; [by left|].
    right. destruct (is_assigned_to_cache c) eqn:Hc.
    + eexists. split; [reflexivity|]. exists k, c, c, []. cbn.
      rewrite HPs, app_nil_r.
      split_and!; try done; [by right|by left|].
      by apply bool_decide_eq_true in Hc.
    + cbn [available_cache_indices with_decode_pull_socket]. rewrite Hpop.
      eexists. split; [reflexivity|]. eexists k, c, _, [_]. cbn. rewrite HPs.
      split_and!; try done; [by right| |by eexists].
      right. by exists x.
  - right. destruct (is_assigned_to_cache c) eqn:Hc.
    + eexists. split; [reflexivity|]. exists k, c, c, []. cbn.
      rewrite app_nil_r.
      split_and!; try done; [by left|by left|].
      by apply bool_decide_eq_true in Hc.
    + cbn [available_cache_indices with_preempted_decode]. rewrite Hpop.
      eexists. split; [reflexivity|]. eexists k, c, _, [_]. cbn.
      split_and!; try done; [by left| |by eexists].
      right. by exists x.
Qed.

Lemma admission_phase_total (s : DecodeScheduler) :
  ∃ s', admission_phase s = Ok s'
        ∧ (available_cache_indices s' = ∅
           ∨ preempted_decode s' = [] ∧ decode_pull_socket s' = []).
Proof.
  unfold admission_phase.
  assert (Hgen : ∀ fuel (s0 : DecodeScheduler),
    (length (preempted_decode s0) + length (decode_pull_socket s0) < fuel)%nat →
    ∃ s', admission_loop fuel s0 = Ok s'
          ∧ (available_cache_indices s' = ∅
             ∨ preempted_decode s' = [] ∧ decode_pull_socket s' = [])).
  { induction fuel as [|fuel IH]; intros s0 Hfuel; [lia|].
    destruct (decide (available_cache_indices s0 = ∅)) as [He|Hne].
    { exists s0. cbn [admission_loop]. rewrite decide_True by done. eauto. }
    destruct (admission_loop_step fuel s0 Hne)
      as [(HP & HD & ->)|(s1 & -> & k & c & c' & claim & Hfrom & _)];
      [by eauto|].
    apply IH.
    destruct Hfrom as [[HP HD]|(HP & HP' & HD)];
      rewrite HP, ?HD, ?HP' in *; cbn in *; lia. }
  apply Hgen. lia.
Qed.

(** X3.  When the admission phase returns, either no slot is free or
    the preempted queue and the decode socket are both empty: it leaves
    no request waiting while a slot is free. *)
Theorem admission_phase_stops (s s' : DecodeScheduler) :
  admission_phase s = Ok s' →
  available_cache_indices s' = ∅
  ∨ preempted_decode s' = [] ∧ decode_pull_socket s' = [].
Proof.
  intros Hrun. destruct (admission_phase_total s) as (s1 & Hrun1 & Hstop).
  rewrite Hrun in Hrun1. by injection Hrun1 as ->.
Qed.

(** Rule for the runs of the admission loop that return: a relation
    that holds of a state and itself and is closed under admission steps
    on the left holds between entry and exit. *)
Lemma admission_loop_rule (R : DecodeScheduler → DecodeScheduler → Prop) :
  (∀ s, R s s) →
  (∀ s s1 s', admission_step s s1 → R s1 s' → R s s') →
  ∀ fuel s s', admission_loop fuel s = Ok s' → R s s'.
Proof.
  intros Hrefl Hstep. induction fuel as [|fuel IH]; intros s s'.
  - cbn. destruct (decide (available_cache_indices s = ∅)); [|done].
    intros [= <-]. apply Hrefl.
  - destruct (decide (available_cache_indices s = ∅)) as [He|Hne].
    { cbn [admission_loop]. rewrite decide_True by done.
      intros [= <-]. apply Hrefl. }
    destruct (admission_loop_step fuel s Hne)
      as [(_ & _ & ->)|(s1 & -> & Hs1)].
    + intros [= <-]. apply Hrefl.
    + intros Hrun. eapply Hstep; [done|]. by apply IH.
Qed.

Lemma admission_loop_appends (fuel : nat) (s s' : DecodeScheduler) :
  admission_loop fuel s = Ok s' →
  od_keys (active_batch s) `prefix_of` od_keys (active_batch s')
  ∧ (all_assigned (active_batch s) → all_assigned (active_batch s')).
Proof.
  apply (admission_loop_rule (λ s s',
    od_keys (active_batch s) `prefix_of` od_keys (active_batch s')
    ∧ (all_assigned (active_batch s) → all_assigned (active_batch s')))).
  - done.
  - intros s0 s1 s2 (k & c & c' & claim & _ & _ & Hc' & Hact & _)
      [Hpre Hall].
    split.
    + etrans; [|exact Hpre]. rewrite Hact.
      destruct (od_set_keys (active_batch s0) k c') as [-> | ->];
        [done|by apply prefix_app_r].
    + intros H0. apply Hall. rewrite Hact. by apply od_set_Forall.
Qed.

(** X4.  The admission phase only adds at the tail of the active batch:
    the keys it found are a prefix of the keys it leaves, and if every
    member held a slot before, every member holds a slot after. *)
Theorem admission_phase_appends (s s' : DecodeScheduler) :
  admission_phase s = Ok s' →
  od_keys (active_batch s) `prefix_of` od_keys (active_batch s')
  ∧ (all_assigned (active_batch s) → all_assigned (active_batch s')).
Proof. apply admission_loop_appends. Qed.

(** With distinct identifiers, an admission step moves a request within
    the list of held identifiers without changing the list. *)
Lemma admission_step_held (s s1 : DecodeScheduler) :
  admission_step s s1 →
  NoDup (held_request_ids s) →
  held_request_ids s1 = held_request_ids s.
Proof.
  intros (k & c & c' & claim & Hfrom & _ & _ & Hact & _) Hnd.
  unfold held_request_ids in *. rewrite Hact.
  assert (Hfresh : k ∉ od_keys (active_batch s)).
  { intros Hin. apply NoDup_app in Hnd as (_ & Hsep & _).
    apply (Hsep _ Hin).
    destruct Hfrom as [[-> _]|(-> & _ & ->)]; cbn; apply list_elem_of_here. }
  rewrite od_set_fresh, od_keys_app by done.
  destruct Hfrom as [[-> ->]|(-> & -> & ->)]; cbn; by rewrite <- app_assoc.
Qed.


Lemma od_set_key_in (d : Batch) k (v : InputContext) :
  k ∈ od_keys (od_set d k v).
Proof.
  unfold od_keys. induction d as [|[k0 v0] d IH]; cbn.
  - apply list_elem_of_here.
  - destruct (decide (k0 = k)) as [->|Hne]; cbn.
    + apply list_elem_of_here.
    + by apply list_elem_of_further.
Qed.

Lemma od_set_keys_in (d : Batch) k k' (v : InputContext) :
  k' ∈ od_keys d → k' ∈ od_keys (od_set d k v).
Proof.
  intros Hin. destruct (od_set_keys d k v) as [-> | ->]; [done|].
  apply elem_of_app. by left.
Qed.

(** Storing requests in a batch removes no key. *)
Lemma store_all_keys_mono (taken : Batch) :
  ∀ (b : Batch) k,
    k ∈ od_keys b ∨ k ∈ od_keys taken →
    k ∈ od_keys (store_all b taken).
Proof.
  induction taken as [|[k0 c0] taken IH]; intros b k [Hb|Ha].
  - done.
  - by apply elem_of_nil in Ha.
  - apply IH. left. by apply od_set_keys_in.
  - apply elem_of_cons in Ha as [->|Ha].
    + apply IH. left. apply od_set_key_in.
    + apply IH. by right.
Qed.

(** Storing requests with new, distinct identifiers appends them in
    order. *)
Lemma store_all_fresh (taken : Batch) :
  ∀ b : Batch,
    NoDup (od_keys b ++ od_keys taken) →
    od_keys (store_all b taken) = od_keys b ++ od_keys taken.
Proof.
  induction taken as [|[k0 c0] taken IH]; intros b Hnd.
  - cbn. by rewrite app_nil_r.
  - assert (Hfresh : k0 ∉ od_keys b).
    { apply NoDup_app in Hnd as (_ & Hsep & _). intros Hin.
      apply (Hsep _ Hin). apply list_elem_of_here. }
    change (store_all b ((k0, c0) :: taken))
      with (store_all (od_set b k0 c0) taken).
    rewrite (od_set_fresh _ _ _ Hfresh), IH.
    + rewrite od_keys_app. by rewrite <- app_assoc.
    + rewrite od_keys_app. by rewrite <- app_assoc.
Qed.

Lemma stored_as_keys (pulled taken : Batch) :
  Forall2 stored_as pulled taken → od_keys taken = od_keys pulled.
Proof.
  unfold od_keys. induction 1 as [|x y l k (Hk & _) _ IH]; [done|].
  cbn. by rewrite Hk, IH.
Qed.

(** The runs of the admission loop that return: the requests pulled are
    a prefix of the preempted queue followed by the inbound socket, and
    they are stored in the batch in the order in which they were
    pulled. *)
Lemma admission_loop_pulls (fuel : nat) (s s' : DecodeScheduler) :
  admission_loop fuel s = Ok s' →
  ∃ (n : nat) (taken : Batch),
    preempted_decode s' = drop n (preempted_decode s)
    ∧ decode_pull_socket s'
      = drop (n - length (preempted_decode s)) (decode_pull_socket s)
    ∧ Forall2 stored_as (take n (waiting s)) taken
    ∧ active_batch s' = store_all (active_batch s) taken.
Proof.
  apply (admission_loop_rule (λ s s', ∃ (n : nat) (taken : Batch),
    preempted_decode s' = drop n (preempted_decode s)
    ∧ decode_pull_socket s'
      = drop (n - length (preempted_decode s)) (decode_pull_socket s)
    ∧ Forall2 stored_as (take n (waiting s)) taken
    ∧ active_batch s' = store_all (active_batch s) taken)).
  - intros s0. exists 0%nat, []. split_and!; [done|done|constructor|done].
  - intros s0 s1 s2 (k & c & c' & claim & Hfrom & Hslot & Hsome & Hact & _)
      (n & taken & Hp & Hd & HF & Hb).
    assert (Has : stored_as (k, c) (k, c')).
    { split_and!; [done|done|].
      destruct Hslot as [(_ & -> & _)|(x & Hun & -> & _)]; [by left|].
      right. split; [|by exists x].
      apply eq_None_not_Some. by apply bool_decide_eq_false in Hun. }
    exists (S n), ((k, c') :: taken).
    assert (Hw : waiting s0 = (k, c) :: waiting s1).
    { unfold waiting. destruct Hfrom as [[-> ->]|(-> & -> & ->)]; done. }
    rewrite Hw. cbn [take]. split_and!.
    + rewrite Hp. destruct Hfrom as [[-> _]|(-> & -> & _)]; [done|].
      by rewrite !drop_nil.
    + rewrite Hd. destruct Hfrom as [[-> ->]|(-> & -> & ->)]; [done|].
      cbn. by rewrite Nat.sub_0_r.
    + by constructor.
    + by rewrite Hb, Hact.
Qed.

(** C7.  A pull takes the head of the preempted queue whenever there is
    one and leaves the inbound decode socket alone; it takes from the
    inbound socket only when the preempted queue is empty.  The
    admission phase returns; the requests it pulled are the first [n] of
    the preempted queue followed by the inbound socket, so it took from
    the inbound socket only once the preempted queue was drained; and it
    stored every one of them in the active batch, in the order in which
    it pulled them, each as it was or with a slot assigned.  With
    distinct identifiers the batch is therefore the old batch, then the
    re-admitted requests, then the requests admitted from the inbound
    socket. *)
Theorem admission_phase_preempted_first (s : DecodeScheduler) :
  (∀ r q, preempted_decode s = r :: q →
     pull_from_decode_socket s = Ok (r, with_preempted_decode q s)
     ∧ decode_pull_socket (with_preempted_decode q s) = decode_pull_socket s)
  ∧ (∀ r s', pull_from_decode_socket s = Ok (r, s') →
       decode_pull_socket s' ≠ decode_pull_socket s →
       preempted_decode s = [] ∧ head (decode_pull_socket s) = Some r)
  ∧ ∃ s' (n : nat) (taken : Batch),
      admission_phase s = Ok s'
      ∧ preempted_decode s' = drop n (preempted_decode s)
      ∧ decode_pull_socket s'
        = drop (n - length (preempted_decode s)) (decode_pull_socket s)
      ∧ (decode_pull_socket s' ≠ decode_pull_socket s →
         preempted_decode s' = [])
      ∧ Forall2 stored_as (take n (waiting s)) taken
      ∧ active_batch s' = store_all (active_batch s) taken
      ∧ (∀ k, k ∈ od_keys (take n (waiting s)) →
           k ∈ od_keys (active_batch s'))
      ∧ (NoDup (held_request_ids s) →
         od_keys (active_batch s')
         = od_keys (active_batch s)
           ++ od_keys (take n (preempted_decode s))
           ++ od_keys (take (n - length (preempted_decode s))
                         (decode_pull_socket s))).
Proof.
  split_and!.
  - intros r q Hp. split; [by apply pull_from_decode_socket_preempted|done].
  - intros r s' Hpull Hne.
    pose proof (pull_from_decode_socket_inbound _ _ _ Hpull Hne) as Hp.
    split; [done|]. revert Hpull. unfold pull_from_decode_socket. rewrite Hp.
    destruct (decode_pull_socket s); [done|]. by intros [= <- _].
  - destruct (admission_phase_total s) as (s' & Hrun & _).
    destruct (admission_loop_pulls _ _ _ Hrun)
      as (n & taken & Hp & Hd & HF & Hb).
    pose proof (stored_as_keys _ _ HF) as Hkeys.
    exists s', n, taken. split_and!; [done|done|done| |done|done| |].
    + intros Hne. rewrite Hp. apply drop_ge.
      destruct (decide (n ≤ length (preempted_decode s))%nat) as [Hle|];
        [|lia].
      exfalso. apply Hne. rewrite Hd.
      by replace (n - length (preempted_decode s))%nat with 0%nat by lia.
    + intros k Hk. rewrite Hb. apply store_all_keys_mono. right.
      by rewrite Hkeys.
    + intros Hnd. rewrite Hb, store_all_fresh.
      * rewrite Hkeys. unfold waiting. by rewrite take_app, od_keys_app.
      * rewrite Hkeys. unfold held_request_ids in Hnd.
        rewrite <- od_keys_app in Hnd. fold (waiting s) in Hnd.
        eapply sublist_NoDup; [exact Hnd|].
        apply sublist_app; [done|]. unfold od_keys. rewrite fmap_take.
        apply sublist_take.
Qed.

(** X5.  The only calls of the admission phase are [external_claim]
    calls; the slots they name are distinct, were free before the phase,
    are not free after it, and are exactly the slots that left the free
    set. *)
Theorem admission_phase_claims (s s' : DecodeScheduler) :
  admission_phase s = Ok s' →
  ∃ new,
    calls s' = calls s ++ new
    ∧ Forall (λ c, is_external_claim c = true) new
    ∧ NoDup (claimed_by_calls new)
    ∧ available_cache_indices s' ## list_to_set (claimed_by_calls new)
    ∧ available_cache_indices s
      = available_cache_indices s' ∪ list_to_set (claimed_by_calls new).
Proof.
  unfold admission_phase.
  apply (admission_loop_rule (λ s s', ∃ new,
    calls s' = calls s ++ new
    ∧ Forall (λ c, is_external_claim c = true) new
    ∧ NoDup (claimed_by_calls new)
    ∧ available_cache_indices s' ## list_to_set (claimed_by_calls new)
    ∧ available_cache_indices s
      = available_cache_indices s' ∪ list_to_set (claimed_by_calls new))).
  - intros s0. exists []. cbn. rewrite app_nil_r.
    split_and!; [done|constructor|constructor| |].
    + set_unfold. by intros ? ? [].
    + by rewrite (right_id_L ∅ (∪)).
  - intros s0 s1 s2 (k & c & c' & claim & _ & Hslot & _ & _ & Hcalls & _)
      (new & Hc & Hall & Hnd & Hdisj & Hav).
    destruct Hslot as [(_ & _ & -> & Ha)|(x & _ & _ & -> & Hx & Ha)].
    + exists new. rewrite app_nil_r in Hcalls. rewrite Hcalls in Hc.
      rewrite <- Ha. by split_and!.
    + exists (CallExternalClaim [x] :: new).
      assert (Hx2 : x ∉ available_cache_indices s2).
      { intros Hin. assert (x ∈ available_cache_indices s1) as Hin1
          by (rewrite Hav; set_unfold; tauto).
        rewrite Ha in Hin1. set_unfold. tauto. }
      assert (Hxc : x ∉ claimed_by_calls new).
      { intros Hin. assert (x ∈ available_cache_indices s1) as Hin1.
        { rewrite Hav. apply elem_of_union. right.
          by apply elem_of_list_to_set. }
        rewrite Ha in Hin1. set_unfold. tauto. }
      split_and!.
      * rewrite Hc, Hcalls. by rewrite <- app_assoc.
      * by constructor.
      * cbn. by apply NoDup_cons.
      * cbn. set_unfold. intros y Hy [->|Hin]; [done|]. by apply (Hdisj y).
      * cbn. rewrite (union_difference_singleton_L x _ Hx), <- Ha, Hav.
        apply set_eq. intros y. set_unfold. tauto.
Qed.

Lemma admission_loop_fills (fuel : nat) :
  ∀ s : DecodeScheduler,
    (length (waiting s) < fuel)%nat →
    NoDup (held_request_ids s) →
    all_unassigned (waiting s) →
    ∃ s',
      admission_loop fuel s = Ok s'
      ∧ od_keys (active_batch s')
        = od_keys (active_batch s)
          ++ take (size (available_cache_indices s) `min` length (waiting s))
               (od_keys (waiting s))
      ∧ waiting s'
        = drop (size (available_cache_indices s) `min` length (waiting s))
            (waiting s)
      ∧ (size (available_cache_indices s')
         + size (available_cache_indices s) `min` length (waiting s)
         = size (available_cache_indices s))%nat.
Proof.
  induction fuel as [|fuel IH]; intros s Hfuel Hnd Hun; [lia|].
  destruct (decide (available_cache_indices s = ∅)) as [He|Hne].
  { exists s. cbn [admission_loop]. rewrite decide_True by done.
    rewrite He, size_empty. cbn. by rewrite app_nil_r. }
  destruct (admission_loop_step fuel s Hne)
    as [(HP & HD & ->)|(s1 & -> & Hstep)].
  { exists s. unfold waiting. rewrite HP, HD. cbn.
    rewrite Nat.min_0_r. cbn. by rewrite app_nil_r, Nat.add_0_r. }
  pose proof (admission_step_held _ _ Hstep Hnd) as Hheld.
  destruct Hstep as (k & c & c' & claim & Hfrom & Hslot & _ & Hact & _).
  assert (Hw : waiting s = (k, c) :: waiting s1).
  { unfold waiting.
    destruct Hfrom as [[-> ->]|(-> & -> & ->)]; done. }
  rewrite Hw in Hun, Hfuel |- *. apply Forall_cons in Hun as [Hc Hun1].
  cbn in Hc.
  destruct Hslot as [(Hass & _)|(x & _ & -> & _ & Hx & Hav)].
  { unfold is_assigned_to_cache in Hass. rewrite Hc in Hass.
    apply bool_decide_eq_true in Hass as [? ?]. done. }
  assert (Hfresh : k ∉ od_keys (active_batch s)).
  { intros Hin. unfold held_request_ids in Hnd.
    apply NoDup_app in Hnd as (_ & Hsep & _). apply (Hsep _ Hin).
    rewrite <- od_keys_app. fold (waiting s). rewrite Hw.
    apply list_elem_of_here. }
  assert (Hsize : size (available_cache_indices s)
                  = S (size (available_cache_indices s1))).
  { rewrite Hav.
    rewrite (union_difference_singleton_L x (available_cache_indices s) Hx)
      at 1.
    rewrite size_union; [by rewrite size_singleton|].
    set_unfold. intros y -> [_ Hy]. done. }
  destruct (IH s1) as (s' & Hrun & Hkeys & Hwait & Hsz).
  { cbn in Hfuel. lia. }
  { by rewrite Hheld. }
  { done. }
  exists s'. rewrite Hsize. cbn [length].
  rewrite <- Nat.succ_min_distr. split_and!; [done| | |lia].
  - rewrite Hkeys, Hact, od_set_fresh, od_keys_app by done.
    unfold od_keys at 3 4. cbn. by rewrite <- app_assoc.
  - by rewrite Hwait.
Qed.

(** X18.  When the waiting requests hold no slot and the identifiers of
    all held requests are distinct, the admission phase takes in as many
    requests as there are free slots or waiting requests, whichever is
    fewer: they are the first of the waiting requests, preempted ones
    first, appended to the batch in that order, and each takes one slot
    from the free set. *)
Theorem admission_phase_fills (s : DecodeScheduler) :
  NoDup (held_request_ids s) →
  all_unassigned (waiting s) →
  ∃ s',
    admission_phase s = Ok s'
    ∧ od_keys (active_batch s')
      = od_keys (active_batch s)
        ++ take (size (available_cache_indices s) `min` length (waiting s))
             (od_keys (waiting s))
    ∧ waiting s'
      = drop (size (available_cache_indices s) `min` length (waiting s))
          (waiting s)
    ∧ (size (available_cache_indices s')
       + size (available_cache_indices s) `min` length (waiting s)
       = size (available_cache_indices s))%nat.
Proof.
  intros Hnd Hun. apply admission_loop_fills; [|done|done].
  unfold waiting. rewrite length_app. lia.
Qed.

End AdmissionExtras.

(** ** The reservation phase *)

Section ReservationExtras.
Context `{Collab : Collaborators}.

Lemma od_del_last_split (d : Batch) (l : list string) (k : string) :
  od_keys d = l ++ [k] → k ∉ l →
  ∃ d' v, d = d' ++ [(k, v)] ∧ od_del d k = d' ∧ od_keys d' = l.
Proof.
  unfold od_keys. revert l. induction d as [|[k0 v0] d IH]; intros l; cbn.
  - by destruct l.
  - destruct l as [|k1 l]; cbn.
    + intros [= -> Hd] _. rewrite decide_True by done.
      destruct d; [|done]. by exists [], v0.
    + intros [= <- Hd]. rewrite not_elem_of_cons. intros [Hne Hk].
      rewrite decide_False by done.
      destruct (IH l Hd Hk) as (d' & v & -> & -> & Hk').
      exists ((k0, v0) :: d'), v. cbn. by rewrite Hk'.
Qed.

Lemma reservation_steps_le (s : DecodeScheduler) (c : InputContext) :
  reservation_steps s c ≤ max_forward_steps_tg (scheduler_config s).
Proof.
  unfold reservation_steps.
  destruct (Z.ltb_spec (max_forward_steps_tg (scheduler_config s))
              (compute_num_available_steps c (max_seq_len (world s)))); lia.
Qed.

Lemma preempted_decode_evicted k (c : InputContext) slot r ctx w
    (s : DecodeScheduler) :
  preempted_decode (evicted k c slot (after_failed_prefetch r ctx w s))
  = preempted_decode s ++ [(k, reset (release w c).2)].
Proof. done. Qed.

Lemma active_batch_evicted k (c : InputContext) slot r ctx w
    (s : DecodeScheduler) :
  active_batch (evicted k c slot (after_failed_prefetch r ctx w s))
  = od_del (active_batch s) k.
Proof. done. Qed.

(** What the reservation phase leaves behind, from a batch with distinct
    keys whose members all hold a slot: the members it evicted, [gone],
    are a suffix of the batch. *)
Lemma reserve_phase_outcome (s : DecodeScheduler) :
  NoDup (od_keys (active_batch s)) →
  all_assigned (active_batch s) →
  ∃ s' new gone,
    reserve_phase s = Ok s'
    ∧ calls s' = calls s ++ new
    ∧ active_batch s = active_batch s' ++ gone
    ∧ od_keys (preempted_decode s')
      = od_keys (preempted_decode s) ++ reverse (od_keys gone)
    ∧ (∀ k, k ∈ od_keys (active_batch s') →
         ∃ n, n ≤ max_forward_steps_tg (scheduler_config s)
              ∧ CallPrefetch k n true ∈ new)
    ∧ scheduler_config s' = scheduler_config s
    ∧ decode_pull_socket s' = decode_pull_socket s
    ∧ request_pull_socket s' = request_pull_socket s
    ∧ prefill_push_socket s' = prefill_push_socket s
    ∧ response_push_socket s' = response_push_socket s.
Proof.
  intros Hnd Hall.
  set (M := max_forward_steps_tg (scheduler_config s)).
  set (frame := λ s1 : DecodeScheduler,
    scheduler_config s1 = scheduler_config s
    ∧ decode_pull_socket s1 = decode_pull_socket s
    ∧ request_pull_socket s1 = request_pull_socket s
    ∧ prefill_push_socket s1 = prefill_push_socket s
    ∧ response_push_socket s1 = response_push_socket s).
  set (Q := λ (ok_keys : list string) (s1 : DecodeScheduler), ∃ new gone,
    calls s1 = calls s ++ new
    ∧ active_batch s = active_batch s1 ++ gone
    ∧ od_keys (preempted_decode s1)
      = od_keys (preempted_decode s) ++ reverse (od_keys gone)
    ∧ (∀ k, k ∈ ok_keys → ∃ n, n ≤ M ∧ CallPrefetch k n true ∈ new)
    ∧ frame s1).
  destruct (reserve_loop_rule
    (λ cands s1, ∃ confirmed, reserve_inv confirmed cands s1 ∧ Q confirmed s1)
    (λ s1, Q (od_keys (active_batch s1)) s1))
    with (fuel := length (active_batch s))
         (cands := od_keys (active_batch s)) (s := s)
    as (s' & Hrun & new & gone & Hc & Ha & Hp & Hok & Hframe).
  - intros s1 (confirmed & (Hkeys & _) & HQ).
    rewrite Hkeys, app_nil_r. exact HQ.
  - intros r rest s1
      (confirmed & Hinv & new & gone & Hc & Ha & Hp & Hok & Hframe).
    destruct (reserve_step_cases _ _ _ _ Hinv)
      as (context & slot & ok & w & Hget & Hslot & Hpre & Hcase).
    pose proof Hframe as (Hcfg & _).
    pose proof Hinv as (Hkeys & Hnd1 & Hall1).
    destruct ok.
    + eexists. split; [exact Hcase|]. split; [|lia].
      exists (confirmed ++ [r]). split; [by eapply reserve_inv_confirm|].
      exists (new ++ [CallPrefetch r (reservation_steps s1 context) true]),
        gone.
      split_and!; [cbn; by rewrite Hc, <- app_assoc|done|done| |done].
      intros k [Hk|Hk%list_elem_of_singleton]%elem_of_app.
      * destruct (Hok k Hk) as (n & Hn & Hin). exists n. split; [done|].
        apply elem_of_app. by left.
      * subst k. eexists. split; [|apply elem_of_app; right;
                                    apply list_elem_of_here].
        subst M. rewrite <- Hcfg. apply reservation_steps_le.
    + destruct (last rest) as [newest|] eqn:Hlast.
      * destruct Hcase as (nc & nslot & Hnget & Hnslot & _ & _ & Hcase).
        eexists. split; [exact Hcase|].
        pose proof (length_removelast_last _ _ Hlast) as Hrl.
        assert (length rest ≠ 0%nat).
        { apply last_Some in Hlast as [l' ->]. rewrite length_app. cbn. lia. }
        split; [|cbn; lia].
        exists confirmed.
        split; [by eapply reserve_inv_evict_newest|].
        apply last_Some in Hlast as [rest' ->].
        destruct (od_del_last_split (active_batch s1)
                    (confirmed ++ r :: rest') newest)
          as (d' & v & Hd & Hdel & _).
        { by rewrite Hkeys, <- app_assoc. }
        { rewrite Hkeys in Hnd1.
          replace (confirmed ++ r :: rest' ++ [newest])
            with ((confirmed ++ r :: rest') ++ [newest]) in Hnd1
            by by rewrite <- app_assoc.
          apply NoDup_app in Hnd1 as (_ & Hsep & _).
          intros Hin. apply (Hsep _ Hin). apply list_elem_of_here. }
        exists (new ++ [CallPrefetch r (reservation_steps s1 context) false;
                        CallRelease newest nc]),
          ((newest, v) :: gone).
        split_and!.
        -- cbn. by rewrite Hc, <- !app_assoc.
        -- cbn. rewrite Hdel, Ha, Hd. by rewrite <- app_assoc.
        -- rewrite preempted_decode_evicted. unfold od_keys in Hp |- *.
           by rewrite fmap_app, Hp, !fmap_cons, reverse_cons, <- app_assoc.
        -- intros k Hk. destruct (Hok k Hk) as (n & Hn & Hin).
           exists n. split; [done|]. apply elem_of_app. by left.
        -- done.
      * apply last_None in Hlast as ->.
        eexists. split; [exact Hcase|].
        destruct (od_del_last_split (active_batch s1) confirmed r)
          as (d' & v & Hd & Hdel & Hk').
        { done. }
        { rewrite Hkeys in Hnd1. apply NoDup_app in Hnd1 as (_ & Hsep & _).
          intros Hin. apply (Hsep _ Hin). apply list_elem_of_here. }
        exists (new ++ [CallPrefetch r (reservation_steps s1 context) false;
                        CallRelease r context]),
          ((r, v) :: gone).
        split_and!.
        -- cbn. by rewrite Hc, <- !app_assoc.
        -- cbn. rewrite Hdel, Ha, Hd. by rewrite <- app_assoc.
        -- rewrite preempted_decode_evicted. unfold od_keys in Hp |- *.
           by rewrite fmap_app, Hp, !fmap_cons, reverse_cons, <- app_assoc.
        -- rewrite active_batch_evicted, Hdel, Hk'. intros k Hk.
           destruct (Hok k Hk) as (n & Hn & Hin).
           exists n. split; [done|]. apply elem_of_app. by left.
        -- done.
  - exists []. split; [by split_and!|].
    exists [], []. rewrite !app_nil_r. split_and!; try done.
    intros k Hk. by apply elem_of_nil in Hk.
  - unfold od_keys. by rewrite length_fmap.
  - exists s', new, gone. destruct Hframe as (? & ? & ? & ? & ?).
    by split_and!.
Qed.

(** X6.  From a batch with distinct keys whose members all hold a slot,
    the reservation phase returns and keeps a prefix of the batch: the
    survivors are the oldest members, unchanged and in the same order.
    The evicted members join the tail of the preempted queue in the
    reverse of their batch order, newest first. *)
Theorem reserve_phase_keeps_oldest (s : DecodeScheduler) :
  NoDup (od_keys (active_batch s)) →
  all_assigned (active_batch s) →
  ∃ s' (n : nat),
    reserve_phase s = Ok s'
    ∧ active_batch s' = take n (active_batch s)
    ∧ od_keys (preempted_decode s')
      = od_keys (preempted_decode s)
        ++ reverse (od_keys (drop n (active_batch s))).
Proof.
  intros Hnd Hall.
  destruct (reserve_phase_outcome s Hnd Hall)
    as (s' & new & gone & Hrun & _ & Ha & Hp & _).
  exists s', (length (active_batch s')). split_and!; [done| |].
  - by rewrite Ha, take_app_length.
  - by rewrite Hp, Ha, drop_app_length.
Qed.

(** X7.  From such a batch, every member left in the batch by the
    reservation phase has a successful prefetch in the calls of the phase,
    for at most [max_forward_steps_tg] steps. *)
Theorem reserve_phase_survivors_reserved (s : DecodeScheduler) :
  NoDup (od_keys (active_batch s)) →
  all_assigned (active_batch s) →
  ∃ s' new,
    reserve_phase s = Ok s'
    ∧ calls s' = calls s ++ new
    ∧ ∀ k, k ∈ od_keys (active_batch s') →
        ∃ n, n ≤ max_forward_steps_tg (scheduler_config s)
             ∧ CallPrefetch k n true ∈ new.
Proof.
  intros Hnd Hall.
  destruct (reserve_phase_outcome s Hnd Hall)
    as (s' & new & gone & Hrun & Hc & _ & _ & Hok & _).
  by exists s', new.
Qed.


End ReservationExtras.

(** ** Step planning *)

Section PlannerExtras.
Context `{Collab : Collaborators}.

Lemma existsb_Permutation {A} (f : A → bool) (l1 l2 : list A) :
  l1 ≡ₚ l2 → existsb f l1 = existsb f l2.
Proof.
  induction 1 as [|x l1 l2 _ IH|x y l|l1 l2 l3 _ IH1 _ IH2]; cbn.
  - done.
  - by rewrite IH.
  - by destruct (f x), (f y).
  - by rewrite IH1.
Qed.

Lemma foldr_max_Permutation (a : Z) (l1 l2 : list Z) :
  l1 ≡ₚ l2 → foldr Z.max a l1 = foldr Z.max a l2.
Proof.
  induction 1 as [|x l1 l2 _ IH|x y l|l1 l2 l3 _ IH1 _ IH2]; cbn.
  - done.
  - by rewrite IH.
  - lia.
  - by rewrite IH1.
Qed.

(** X9.  On a non-empty batch the plan is either the configured
    [max_forward_steps_tg] or a positive number below it; so the planner
    never plans zero or a negative number of steps unless
    [max_forward_steps_tg] itself is zero or negative. *)
Theorem calculate_batch_num_steps_positive (s : DecodeScheduler) :
  active_batch s ≠ [] →
  ∃ n, calculate_batch_num_steps s = Ok n
       ∧ (n = max_forward_steps_tg (scheduler_config s)
          ∨ 0 < n < max_forward_steps_tg (scheduler_config s))
       ∧ (0 < max_forward_steps_tg (scheduler_config s) → 0 < n).
Proof.
  intros Hne.
  destruct (calculate_batch_num_steps_guarded s Hne) as (n & Hn & ->).
  exists n. split; [done|].
  revert Hn. unfold step_plan_guarded.
  destruct (od_values (active_batch s)) as [|c cs]; [done|].
  destruct (existsb has_no_budget (c :: cs)); [intros [= <-]; lia|].
  destruct (Z.ltb_spec 0 (batch_maximum c cs)),
    (Z.ltb_spec (batch_maximum c cs)
       (max_forward_steps_tg (scheduler_config s)));
    cbn [andb]; intros [= <-]; lia.
Qed.

(** X10.  The plan does not depend on the order of the batch: two
    schedulers with the same configuration whose batches are
    rearrangements of each other get the same plan. *)
Theorem calculate_batch_num_steps_order (s1 s2 : DecodeScheduler) :
  scheduler_config s1 = scheduler_config s2 →
  active_batch s1 ≡ₚ active_batch s2 →
  calculate_batch_num_steps s1 = calculate_batch_num_steps s2.
Proof.
  intros Hcfg Hperm. unfold calculate_batch_num_steps.
  rewrite !batch_available_steps_loop_spec, Hcfg.
  assert (Hv : od_values (active_batch s1) ≡ₚ od_values (active_batch s2)).
  { unfold od_values. by rewrite Hperm. }
  rewrite (existsb_Permutation _ _ _ Hv).
  rewrite (foldr_max_Permutation _ (member_available_steps
                                      <$> od_values (active_batch s1))
             (member_available_steps <$> od_values (active_batch s2)))
    by by rewrite Hv.
  destruct (active_batch s1) as [|x1 b1] eqn:H1,
    (active_batch s2) as [|x2 b2] eqn:H2; [done| | |done].
  - by apply Permutation_nil_cons in Hperm.
  - symmetry in Hperm. by apply Permutation_nil_cons in Hperm.
Qed.

End PlannerExtras.

(** ** Response stream construction *)

Section StreamExtras.
Context `{Collab : Collaborators}.

Lemma stream_loop_total (r : Responses) :
  ∀ frames0 : list Frame,
    ∃ frames,
      stream_loop r frames0 = Ok frames
      ∧ (length frames0 ≤ length frames)%nat
      ∧ ∀ i k, k ∉ od_keys r → cell frames i k = cell frames0 i k.
Proof.
  unfold od_keys. induction r as [|[k0 response0] r IH]; intros frames0; cbn.
  - by exists frames0.
  - destruct (stream_one_spec frames0 k0 response0)
      as (frames1 & -> & Hlen1 & Hcell1). rewrite bind_Ok.
    destruct (IH frames1) as (frames & -> & Hlen & Hcell).
    exists frames. split_and!; [done|lia|].
    intros i k [Hne Hk]%not_elem_of_cons.
    rewrite Hcell, Hcell1 by done. by rewrite bool_decide_eq_false_2.
Qed.


End StreamExtras.

(** ** Termination reclamation *)

Section ReclamationExtras.
Context `{Collab : Collaborators}.

Lemma handle_terminated_loop_skip_all (r : Responses) (s : DecodeScheduler) :
  Forall (λ kr, is_done kr.2 = false) r →
  handle_terminated_loop r s = Ok s.
Proof.
  induction 1 as [|[k response] r Hd _ IH]; [done|].
  cbn in Hd. by rewrite handle_terminated_skip.
Qed.

Lemma handle_terminated_loop_app_skip (r1 r2 : Responses)
    (s : DecodeScheduler) :
  Forall (λ kr, is_done kr.2 = false) r1 →
  handle_terminated_loop (r1 ++ r2) s = handle_terminated_loop r2 s.
Proof.
  induction 1 as [|[k response] r Hd _ IH]; [done|].
  cbn in Hd. cbn [app]. by rewrite handle_terminated_skip.
Qed.

(** X12.  When no response is marked terminated, reclamation leaves the
    scheduler exactly as it is, also when a response names a request that
    is not in the batch; the same holds when there is no response set. *)
Theorem handle_terminated_responses_none_done (r : Responses)
    (s : DecodeScheduler) :
  Forall (λ kr, is_done kr.2 = false) r →
  _handle_terminated_responses (Some r) s = Ok s
  ∧ _handle_terminated_responses None s = Ok s.
Proof. intros Hr. split; [by apply handle_terminated_loop_skip_all|done]. Qed.

(** X13.  When the first response marked terminated names a request that
    is not a key of the active batch, reclamation raises [KeyError] with
    that identifier. *)
Theorem handle_terminated_responses_missing (r1 r2 : Responses) k response
    (s : DecodeScheduler) :
  Forall (λ kr, is_done kr.2 = false) r1 →
  is_done response = true →
  k ∉ od_keys (active_batch s) →
  _handle_terminated_responses (Some (r1 ++ (k, response) :: r2)) s
  = Raise (KeyError k).
Proof.
  intros Hr1 Hdone Hk. cbn [_handle_terminated_responses].
  rewrite handle_terminated_loop_app_skip by done.
  cbn [handle_terminated_loop]. rewrite Hdone.
  apply od_get_None in Hk. by rewrite Hk.
Qed.

Lemma filter_other_keys (b : Batch) k :
  k ∉ od_keys b → filter (λ kc, kc.1 ≠ k) b = b.
Proof.
  unfold od_keys. induction b as [|[k0 v0] b IH]; [done|].
  rewrite fmap_cons, not_elem_of_cons. cbn [fst]. intros [Hne Hk].
  rewrite filter_cons_True by (cbn; congruence). by rewrite IH.
Qed.

Lemma od_del_filter (b : Batch) k :
  NoDup (od_keys b) → od_del b k = filter (λ kc, kc.1 ≠ k) b.
Proof.
  unfold od_keys. induction b as [|[k0 v0] b IH]; [done|].
  rewrite fmap_cons. cbn [fst od_del]. intros [Hnotin Hnd]%NoDup_cons.
  destruct (decide (k0 = k)) as [->|Hne].
  - rewrite filter_cons_False by (cbn; tauto). by rewrite filter_other_keys.
  - rewrite filter_cons_True by done. by rewrite IH.
Qed.

Lemma terminated_in_cons k0 response0 (r : Responses) k :
  terminated_in ((k0, response0) :: r) k
  = if decide (k0 = k) then is_done response0 else terminated_in r k.
Proof. unfold terminated_in. cbn. by destruct (decide (k0 = k)). Qed.

Lemma handle_terminated_loop_order (r : Responses) :
  ∀ s : DecodeScheduler,
    NoDup (od_keys r) →
    NoDup (od_keys (active_batch s)) →
    (∀ request_id response,
       (request_id, response) ∈ r → is_done response = true →
       ∃ context cache_id,
         od_get (active_batch s) request_id = Some context
         ∧ cache_seq_id context = Some cache_id) →
    ∃ s',
      handle_terminated_loop r s = Ok s'
      ∧ active_batch s'
        = filter (λ kc, terminated_in r kc.1 = false) (active_batch s)
      ∧ preempted_decode s' = preempted_decode s
      ∧ decode_pull_socket s' = decode_pull_socket s
      ∧ ∀ x, x ∈ available_cache_indices s' →
          x ∈ available_cache_indices s
          ∨ ∃ k c, terminated_in r k = true
                   ∧ od_get (active_batch s) k = Some c
                   ∧ cache_seq_id c = Some x.
Proof.
  induction r as [|[k0 response0] r IH]; intros s Hndr Hnd Hin.
  { exists s. split_and!; try done; [|by left].
    symmetry. clear. induction (active_batch s) as [|x l IHl]; [done|].
    by rewrite filter_cons_True, IHl. }
  unfold od_keys in Hndr. cbn in Hndr.
  apply NoDup_cons in Hndr as [Hk0 Hndr].
  assert (Hk0' : terminated_in r k0 = false).
  { unfold terminated_in. apply od_get_None in Hk0. by rewrite Hk0. }
  destruct (is_done response0) eqn:Hdone.
  - destruct (Hin k0 response0) as (context & cache_id & Hget & Hslot);
      [apply list_elem_of_here|done|].
    rewrite (handle_terminated_step _ _ _ _ _ _ Hdone Hget Hslot).
    destruct (IH (reclaimed k0 context cache_id s))
      as (s' & Hrun & Hact & Hp & Hd & Hav).
    { done. }
    { cbn. by apply od_del_NoDup. }
    { intros k response Hel Hdn. cbn.
      rewrite od_get_del_ne;
        [by apply (Hin k response); [apply list_elem_of_further|]|].
      intros ->. apply Hk0. by apply (list_elem_of_fmap_2 fst) in Hel. }
    exists s'. split_and!; [done| |done|done|].
    + rewrite Hact. cbn [active_batch reclaimed with_active_batch].
      rewrite od_del_filter, list_filter_filter by done.
      apply list_filter_iff. intros [k c]. cbn.
      rewrite terminated_in_cons, Hdone.
      destruct (decide (k0 = k)) as [->|Hne]; [split; [tauto|done]|].
      split; [tauto|]. intros ?. split; [done|congruence].
    + intros x [Hx|(k & c & Hk & Hg & Hs)]%Hav.
      * cbn in Hx. apply elem_of_union in Hx as [->%elem_of_singleton|Hx];
          [|by left].
        right. exists k0, context. rewrite terminated_in_cons, Hdone.
        by rewrite decide_True.
      * cbn in Hg. assert (k ≠ k0) as Hne.
        { intros ->. by rewrite od_get_del_eq in Hg. }
        rewrite od_get_del_ne in Hg by done.
        right. exists k, c. rewrite terminated_in_cons.
        by rewrite decide_False.
  - rewrite (handle_terminated_skip _ _ _ _ Hdone).
    destruct (IH s) as (s' & Hrun & Hact & Hp & Hd & Hav).
    { done. }
    { done. }
    { intros k response Hel Hdn. apply (Hin k response); [|done].
      by apply list_elem_of_further. }
    exists s'. split_and!; [done| |done|done|].
    + rewrite Hact. apply list_filter_iff. intros [k c]. cbn.
      rewrite terminated_in_cons, Hdone.
      destruct (decide (k0 = k)) as [->|Hne]; [by rewrite Hk0'|done].
    + intros x [Hx|(k & c & Hk & Hg & Hs)]%Hav; [by left|].
      right. exists k, c. rewrite terminated_in_cons.
      destruct (decide (k0 = k)) as [->|Hne]; [congruence|done].
Qed.

(** X14.  For a response set with one entry per request whose terminated
    requests are members of the batch holding a slot, reclamation removes
    exactly the terminated members from the active batch and keeps the
    others in their order; it leaves the preempted queue and the decode
    socket alone and frees no slot but those of the terminated members. *)
Theorem handle_terminated_responses_keeps_order (r : Responses)
    (s : DecodeScheduler) :
  NoDup (od_keys r) →
  NoDup (od_keys (active_batch s)) →
  (∀ request_id response,
     (request_id, response) ∈ r → is_done response = true →
     ∃ context cache_id,
       od_get (active_batch s) request_id = Some context
       ∧ cache_seq_id context = Some cache_id) →
  ∃ s',
    _handle_terminated_responses (Some r) s = Ok s'
    ∧ active_batch s'
      = filter (λ kc, terminated_in r kc.1 = false) (active_batch s)
    ∧ preempted_decode s' = preempted_decode s
    ∧ decode_pull_socket s' = decode_pull_socket s
    ∧ ∀ x, x ∈ available_cache_indices s' →
        x ∈ available_cache_indices s
        ∨ ∃ k c, terminated_in r k = true
                 ∧ od_get (active_batch s) k = Some c
                 ∧ cache_seq_id c = Some x.
Proof. apply handle_terminated_loop_order. Qed.

End ReclamationExtras.

(** ** The cycle *)

Section CycleExtras.
Context `{Collab : Collaborators}.

Lemma quiet_refl allowed (s : DecodeScheduler) : quiet allowed s s.
Proof.
  split_and!; try done. exists []. split; [by rewrite app_nil_r|constructor].
Qed.

Lemma quiet_trans allowed (s1 s2 s3 : DecodeScheduler) :
  quiet allowed s1 s2 → quiet allowed s2 s3 → quiet allowed s1 s3.
Proof.
  intros ((n1 & Hc1 & Ha1) & ? & ? & ? & ?) ((n2 & Hc2 & Ha2) & ? & ? & ? & ?).
  split_and!; try congruence.
  exists (n1 ++ n2). split; [by rewrite Hc2, Hc1, <- app_assoc|].
  by apply Forall_app.
Qed.

Lemma quiet_weaken (allowed allowed' : Call → bool)
    (s s' : DecodeScheduler) :
  (∀ c, allowed c = true → allowed' c = true) →
  quiet allowed s s' → quiet allowed' s s'.
Proof.
  intros Himp ((new & Hc & Ha) & ? & ? & ? & ?). split_and!; try done.
  exists new. split; [done|]. eapply Forall_impl; [exact Ha|]. apply Himp.
Qed.

Lemma admission_loop_quiet (fuel : nat) (s s' : DecodeScheduler) :
  admission_loop fuel s = Ok s' → quiet is_external_claim s s'.
Proof.
  apply (admission_loop_rule (quiet is_external_claim)).
  - apply quiet_refl.
  - intros s0 s1 s2
      (k & c & c' & claim & _ & Hslot & _ & _ & Hcalls & ? & ? & ? & ?).
    apply quiet_trans. split_and!; try done.
    exists claim. split; [done|].
    destruct Hslot as [(_ & _ & -> & _)|(x & _ & _ & -> & _)];
      by repeat constructor.
Qed.

Lemma reserve_step_quiet request_id rest (s : DecodeScheduler) x :
  reserve_step request_id rest s = Ok x →
  quiet (λ c, is_prefetch c || is_release c) s
    (match x with inl (_, s') => s' | inr s' => s' end).
Proof.
  unfold reserve_step.
  destruct (od_get (active_batch s) request_id) as [context|]; [|done].
  destruct (prefetch _ _ _) as [[] w].
  { intros [= <-]. split_and!; try done. eexists [_]. by repeat constructor. }
  unfold return_to_decode_queue.
  destruct (last rest) as [newest|].
  - destruct (od_get _ newest) as [nc|]; [|done].
    destruct (cache_seq_id nc); [|done]. cbn.
    destruct (release w nc). intros [= <-]. split_and!; try done.
    eexists [_; _]. cbn. split; [by rewrite <- app_assoc|].
    by repeat constructor.
  - destruct (cache_seq_id context); [|done]. cbn.
    destruct (release w context). intros [= <-]. split_and!; try done.
    eexists [_; _]. cbn. split; [by rewrite <- app_assoc|].
    by repeat constructor.
Qed.

Lemma reserve_loop_quiet (fuel : nat) cands (s s' : DecodeScheduler) :
  reserve_loop fuel cands s = Ok s' →
  quiet (λ c, is_prefetch c || is_release c) s s'.
Proof.
  apply (reserve_loop_partial_rule
           (λ _ s1, quiet (λ c, is_prefetch c || is_release c) s s1)
           (quiet (λ c, is_prefetch c || is_release c) s)).
  - done.
  - intros r rest s1 x Hq Hstep%reserve_step_quiet.
    destruct x as [[c' s2]|s2]; by eapply quiet_trans.
  - apply quiet_refl.
Qed.

Lemma handle_terminated_loop_quiet (r : Responses) :
  ∀ s s' : DecodeScheduler,
    handle_terminated_loop r s = Ok s' → quiet is_release s s'.
Proof.
  induction r as [|[k response] r IH]; intros s s'; cbn.
  { intros [= <-]. apply quiet_refl. }
  destruct (is_done response); [|by apply IH].
  destruct (od_get (active_batch s) k) as [context|]; [|done].
  destruct (cache_seq_id context) as [cache_id|]; [|done].
  destruct (release (world s) context) as [w c']. intros Hq%IH.
  eapply quiet_trans; [|exact Hq]. split_and!; try done.
  eexists [_]. by repeat constructor.
Qed.

Lemma stream_responses_to_frontend_effect (r : Responses)
    (s s' : DecodeScheduler) :
  stream_responses_to_frontend (Some r) s = Ok s' →
  calls s' = calls s
  ∧ scheduler_config s' = scheduler_config s
  ∧ request_pull_socket s' = request_pull_socket s
  ∧ prefill_push_socket s' = prefill_push_socket s
  ∧ (response_push_socket s' = response_push_socket s
     ∨ ∃ frames, response_push_socket s' = response_push_socket s ++ [frames]).
Proof.
  unfold stream_responses_to_frontend. destruct r as [|x r].
  { intros [= <-]. split_and!; try done. by left. }
  destruct (stream_loop_total (x :: r) [∅]) as (frames & -> & _).
  rewrite bind_Ok. intros [= <-]. split_and!; try done. right. by eexists.
Qed.

Lemma schedule_batch_effect (num_steps : Z) (s s' : DecodeScheduler) :
  schedule_batch num_steps s = Ok s' →
  (∃ new, calls s' = calls s ++ CallNextToken num_steps :: new
          ∧ Forall (λ c, is_release c = true) new)
  ∧ scheduler_config s' = scheduler_config s
  ∧ request_pull_socket s' = request_pull_socket s
  ∧ prefill_push_socket s' = prefill_push_socket s
  ∧ (response_push_socket s' = response_push_socket s
     ∨ ∃ frames, response_push_socket s' = response_push_socket s ++ [frames]).
Proof.
  unfold schedule_batch.
  destruct (next_token (world s) (active_batch s) num_steps) as [[w b] r].
  cbn [_handle_terminated_responses].
  destruct (handle_terminated_loop r _) as [s2|e] eqn:Hh; [|done].
  rewrite bind_Ok. intros Hs%stream_responses_to_frontend_effect.
  apply handle_terminated_loop_quiet in Hh
    as ((new & Hc & Hall) & Hcfg & Hreq & Hpre & Hres).
  destruct Hs as (Hc' & Hcfg' & Hreq' & Hpre' & Hres').
  cbn in Hc, Hcfg, Hreq, Hpre, Hres.
  split_and!; try congruence.
  - exists new. split; [|done]. rewrite Hc', Hc. by rewrite <- app_assoc.
  - by rewrite <- Hres.
Qed.

(** What a cycle that returns does to the sockets and to the call log. *)
Lemma cycle_effect (s s' : DecodeScheduler) :
  cycle s = Ok s' →
  (∃ forwarded lost,
     request_pull_socket s = forwarded ++ lost ++ request_pull_socket s'
     ∧ prefill_push_socket s' = prefill_push_socket s ++ forwarded
     ∧ (length lost ≤ 1)%nat
     ∧ (transport_reliable → lost = [] ∧ request_pull_socket s' = []))
  ∧ scheduler_config s' = scheduler_config s
  ∧ ∃ new,
      calls s' = calls s ++ CallBeat :: new
      ∧ (count_calls is_next_token new = 0%nat
         ∧ response_push_socket s' = response_push_socket s
         ∨ count_calls is_next_token new = 1%nat
           ∧ (response_push_socket s' = response_push_socket s
              ∨ ∃ frames,
                  response_push_socket s'
                  = response_push_socket s ++ [frames])).
Proof.
  unfold cycle, update_batch, admission_phase, reserve_phase.
  destruct (reserve_memory_and_send_to_prefill_spec (record_call CallBeat s))
    as (_ & forwarded & lost & Hreq0 & Hpre0 & Hlost & Hsame & Hrel).
  destruct Hsame as (Hc0 & Hres0 & _ & _ & _ & _ & Hcalls0).
  cbn zeta in *.
  set (s0 := reserve_memory_and_send_to_prefill (record_call CallBeat s)) in *.
  cbn in Hreq0, Hpre0, Hc0, Hres0, Hcalls0.
  destruct (admission_loop _ s0) as [s1|e] eqn:Hadm; [|done].
  rewrite bind_Ok.
  destruct (reserve_loop _ _ s1) as [s2|e] eqn:Hres; [|done].
  rewrite bind_Ok.
  apply admission_loop_quiet in Hadm as Hq1.
  apply reserve_loop_quiet in Hres as Hq2.
  apply (quiet_weaken _ (λ c, negb (is_next_token c))) in Hq1;
    [|by intros []].
  apply (quiet_weaken _ (λ c, negb (is_next_token c))) in Hq2;
    [|by intros []].
  pose proof (quiet_trans _ _ _ _ Hq1 Hq2)
    as ((new & Hc & Hall) & Hcfg & Hreq & Hpre & Hrsp).
  assert (Hcount : count_calls is_next_token new = 0%nat).
  { clear -Hall. unfold count_calls.
    induction Hall as [|c l Hc _ IH]; [done|]. cbn.
    by destruct (is_next_token c). }
  destruct (active_batch s2) as [|x b] eqn:Hb.
  - intros [= <-]. split_and!; [|congruence|].
    + exists forwarded, lost. rewrite Hreq, Hpre. by split_and!.
    + exists new. split; [by rewrite Hc, Hcalls0, <- app_assoc|].
      left. split; [done|congruence].
  - destruct (calculate_batch_num_steps s2) as [n|e]; [|done].
    rewrite bind_Ok.
    intros ((new2 & Hc2 & Hall2) & Hcfg2 & Hreq2 & Hpre2 & Hrsp2)
      %schedule_batch_effect.
    split_and!; [|congruence|].
    + exists forwarded, lost. rewrite Hreq2, Hpre2, Hreq, Hpre.
      by split_and!.
    + exists (new ++ CallNextToken n :: new2).
      split; [rewrite Hc2, Hc, Hcalls0; by rewrite <- !app_assoc|].
      right. split.
      * rewrite count_calls_app, Hcount. unfold count_calls. cbn. f_equal.
        clear -Hall2. induction Hall2 as [|c l Hc _ IH]; [done|]. cbn.
        by destruct c.
      * rewrite Hrsp, Hres0 in Hrsp2. exact Hrsp2.
Qed.

(** X15.  In a cycle that returns, the generator is called at most once
    and at most one message is appended to the response socket; when the
    generator is not called, nothing is sent. *)
Theorem cycle_generator_once (s s' : DecodeScheduler) :
  cycle s = Ok s' →
  ∃ new,
    calls s' = calls s ++ new
    ∧ (count_calls is_next_token new ≤ 1)%nat
    ∧ (response_push_socket s' = response_push_socket s
       ∨ ∃ frames,
           response_push_socket s' = response_push_socket s ++ [frames])
    ∧ (count_calls is_next_token new = 0%nat →
       response_push_socket s' = response_push_socket s).
Proof.
  intros (_ & _ & new & Hc & Hcases)%cycle_effect.
  exists (CallBeat :: new). split; [done|].
  change (count_calls is_next_token (CallBeat :: new))
    with (count_calls is_next_token new).
  destruct Hcases as [[H0 Hr]|[H1 Hr]].
  - split_and!; [lia|by left|done].
  - split_and!; [lia|done|]. intros H0. lia.
Qed.



Lemma cycle_idle (s : DecodeScheduler) :
  active_batch s = [] →
  (available_cache_indices s = ∅
   ∨ preempted_decode s = [] ∧ decode_pull_socket s = []) →
  cycle s = Ok (reserve_memory_and_send_to_prefill (record_call CallBeat s)).
Proof.
  intros Hb Hidle. unfold cycle, update_batch, admission_phase, reserve_phase.
  destruct (reserve_memory_and_send_to_prefill_frame (record_call CallBeat s))
    as (_ & Ha & Hav & Hp & Hd).
  cbn zeta in *.
  set (s0 := reserve_memory_and_send_to_prefill (record_call CallBeat s)) in *.
  cbn in Ha, Hav, Hp, Hd.
  assert (Hadm : ∀ fuel, admission_loop (S fuel) s0 = Ok s0).
  { intros fuel. cbn [admission_loop].
    destruct (decide (available_cache_indices s0 = ∅)); [done|].
    destruct Hidle as [He|[HP HD]]; [congruence|].
    unfold pull_from_decode_socket. by rewrite Hp, HP, Hd, HD. }
  rewrite Hadm, bind_Ok, Ha, Hb. cbn. by rewrite Ha, Hb.
Qed.

(** X16.  A cycle that starts with an empty batch and can take in
    nothing, because no slot is free or because no request waits for
    decode, only beats and forwards to prefill: its one call is the
    heartbeat, it calls neither the cache manager nor the generator,
    sends no response, and leaves the batch, the free slots and the
    requests waiting for decode as they are. *)
Theorem cycle_without_decode_work (s : DecodeScheduler) :
  active_batch s = [] →
  (available_cache_indices s = ∅
   ∨ preempted_decode s = [] ∧ decode_pull_socket s = []) →
  ∃ s',
    cycle s = Ok s'
    ∧ s' = reserve_memory_and_send_to_prefill (record_call CallBeat s)
    ∧ calls s' = calls s ++ [CallBeat]
    ∧ response_push_socket s' = response_push_socket s
    ∧ active_batch s' = []
    ∧ available_cache_indices s' = available_cache_indices s
    ∧ preempted_decode s' = preempted_decode s
    ∧ decode_pull_socket s' = decode_pull_socket s.
Proof.
  intros Hb Hidle. eexists. split; [by apply cycle_idle|].
  destruct (reserve_memory_and_send_to_prefill_spec (record_call CallBeat s))
    as (_ & _ & _ & _ & _ & _ & Hsame & _).
  destruct Hsame as (_ & Hr & Hd & Hp & Ha & Hav & Hc). cbn zeta in *.
  cbn in Hr, Hd, Hp, Ha, Hav, Hc.
  split_and!; [done|done|done|by rewrite Ha|done|done|done].
Qed.




(** X19.  The batch and the stream agree after [schedule_batch].  When
    the generator answers once per request and its terminated requests
    are members of the batch holding a slot, the batch left behind is the
    generator's batch without the terminated members, and in the message
    sent a request has a stop sentinel exactly when it has left the
    batch: a terminated request has the sentinel after its last token and
    is no longer a key of the batch, a request that goes on has no
    sentinel in any frame and keeps its entry. *)
Theorem schedule_batch_consistent (num_steps : Z) (s : DecodeScheduler)
    (w : World) (b : Batch) (r : Responses) :
  next_token (world s) (active_batch s) num_steps = (w, b, r) →
  NoDup (od_keys r) →
  NoDup (od_keys b) →
  (∀ k response,
     (k, response) ∈ r → is_done response = true →
     ∃ context cache_id,
       od_get b k = Some context ∧ cache_seq_id context = Some cache_id) →
  ∃ s',
    schedule_batch num_steps s = Ok s'
    ∧ active_batch s'
      = filter (λ kc, terminated_in r kc.1 = false) b
    ∧ (r ≠ [] →
       ∃ frames,
         response_push_socket s' = response_push_socket s ++ [frames]
         ∧ ∀ k response, (k, response) ∈ r →
             (is_done response = true →
                cell frames (length (tokens response)) k = Some STOP_STREAM
                ∧ (k ∉ od_keys (active_batch s')))
             ∧ (is_done response = false →
                  (∀ i, cell frames i k ≠ Some STOP_STREAM)
                  ∧ od_get (active_batch s') k = od_get b k)).
Proof.
  intros Hnext Hndr Hndb Hmem. unfold schedule_batch. rewrite Hnext.
  cbn [_handle_terminated_responses].
  set (s1 := record_call (CallNextToken num_steps)
               (with_active_batch b (with_world w s))).
  destruct (handle_terminated_loop_spec r s1 Hndr Hndb Hmem)
    as (s2 & new & Hrun & _ & _ & Hget & _).
  destruct (handle_terminated_loop_order r s1 Hndr Hndb Hmem)
    as (s2' & Hrun' & Hfilter & _).
  rewrite Hrun in Hrun'. injection Hrun' as <-.
  apply handle_terminated_loop_quiet in Hrun as Hq.
  destruct Hq as (_ & _ & _ & _ & Hrsp). cbn in Hrsp.
  rewrite Hrun, bind_Ok. unfold stream_responses_to_frontend.
  destruct (stream_loop_spec r [∅] Hndr) as (frames & Hstream & _ & Hcell).
  destruct r as [|x r']; [by exists s2|].
  rewrite Hstream, bind_Ok. set (r := x :: r') in *.
  eexists. split_and!; [done|done|]. intros _. exists frames.
  split; [cbn; by rewrite Hrsp|].
  intros k response Hel.
  assert (Hc : ∀ i, cell frames i k = expected_cell response i).
  { intros i. rewrite Hcell, (od_get_NoDup _ _ _ Hndr Hel).
    destruct (expected_cell response i); [done|].
    destruct i as [|i]; [apply lookup_empty|done]. }
  specialize (Hget k). rewrite (od_get_NoDup _ _ _ Hndr Hel) in Hget.
  change (active_batch (push_to_response_socket frames s2))
    with (active_batch s2).
  split; intros Hdone; rewrite Hdone in Hget.
  - split; [|by apply od_get_None].
    rewrite Hc. unfold expected_cell.
    rewrite lookup_ge_None_2 by lia. rewrite Hdone.
    by rewrite bool_decide_eq_true_2.
  - split; [|done]. intros i. rewrite Hc. unfold expected_cell.
    rewrite Hdone. by destruct (tokens response !! i).
Qed.

End CycleExtras.

(** ** The further properties on concrete schedulers *)

Section ExtraExamples.
#[local] Existing Instance Scripted.carriers.
#[local] Existing Instance Scripted.collaborators.



Lemma admission_phase_stops_witness :
  ∃ s',
    admission_phase refill = Ok s'
    ∧ available_cache_indices s' = ∅
    ∧ od_keys (decode_pull_socket s') = ["r3"%string].
Proof.
  destruct (admission_phase refill) as [s'|e] eqn:Hrun;
    [|vm_compute in Hrun; discriminate Hrun].
  exists s'. split; [done|].
  pose proof (admission_phase_stops refill s' Hrun) as Hstop.
  vm_compute in Hrun. injection Hrun as <-. split; [|reflexivity].
  destruct Hstop as [Hfull|[_ Hempty]]; [exact Hfull|].
  cbn in Hempty. discriminate Hempty.
Defined.

Lemma readmission_NoDup : NoDup (held_request_ids readmission).
Proof. compute_done. Defined.

Lemma admission_phase_preempted_first_witness :
  ∃ s',
    admission_phase readmission = Ok s'
    ∧ od_keys (active_batch s') = ["r1"; "r2"; "r3"]%string
    ∧ preempted_decode s' = []
    ∧ od_keys (decode_pull_socket s') = ["r4"%string].
Proof.
  destruct (admission_phase_preempted_first readmission)
    as (_ & _ & s' & n & taken & Hrun & Hp & Hd & _ & _ & _ & _ & Hord).
  specialize (Hord readmission_NoDup).
  exists s'. split; [exact Hrun|].
  assert (Hn : n = 2%nat).
  { vm_compute in Hrun. injection Hrun as <-.
    destruct n as [|[|[|n]]]; simpl in Hd; rewrite ?drop_nil in Hd;
      by try discriminate Hd. }
  subst n. split_and!; [by rewrite Hord|by rewrite Hp|by rewrite Hd].
Defined.

Lemma admission_phase_appends_witness :
  ∃ s',
    admission_phase refill = Ok s'
    ∧ ["r1"%string] `prefix_of` od_keys (active_batch s')
    ∧ all_assigned (active_batch s').
Proof.
  destruct (admission_phase refill) as [s'|e] eqn:Hrun;
    [|vm_compute in Hrun; discriminate Hrun].
  exists s'. split; [done|].
  destruct (admission_phase_appends refill s' Hrun) as [Hpre Hall].
  split; [exact Hpre|]. apply Hall. repeat constructor. by eexists.
Defined.

Lemma admission_phase_claims_witness :
  ∃ s' new,
    admission_phase refill = Ok s'
    ∧ calls s' = calls refill ++ new
    ∧ available_cache_indices refill
      = available_cache_indices s' ∪ list_to_set (claimed_by_calls new).
Proof.
  destruct (admission_phase refill) as [s'|e] eqn:Hrun;
    [|vm_compute in Hrun; discriminate Hrun].
  destruct (admission_phase_claims refill s' Hrun)
    as (new & Hc & _ & _ & _ & Hav).
  by exists s', new.
Defined.

Lemma refill_NoDup : NoDup (held_request_ids refill).
Proof. compute_done. Defined.

Lemma refill_waiting_unassigned : all_unassigned (waiting refill).
Proof. repeat constructor. Defined.

Lemma admission_phase_fills_witness :
  ∃ s',
    admission_phase refill = Ok s'
    ∧ od_keys (active_batch s') = ["r1"; "r2"]%string
    ∧ od_keys (waiting s') = ["r3"%string].
Proof.
  destruct (admission_phase_fills refill refill_NoDup
              refill_waiting_unassigned) as (s' & Hrun & Hkeys & Hwait & _).
  exists s'. split_and!; [done|exact Hkeys|by rewrite Hwait].
Defined.

Lemma reserve_phase_keeps_oldest_witness :
  ∃ s' (n : nat),
    reserve_phase (full_batch [true; false]) = Ok s'
    ∧ active_batch s' = take n (active_batch (full_batch [true; false])).
Proof.
  destruct (reserve_phase_keeps_oldest (full_batch [true; false])
              (full_batch_NoDup _) (full_batch_assigned _))
    as (s' & n & Hrun & Ha & _).
  by exists s', n.
Defined.

Lemma reserve_phase_survivors_reserved_witness :
  ∃ s' new,
    reserve_phase (full_batch [true; false]) = Ok s'
    ∧ calls s' = calls (full_batch [true; false]) ++ new
    ∧ ∀ k, k ∈ od_keys (active_batch s') →
        ∃ n, n ≤ 10 ∧ CallPrefetch k n true ∈ new.
Proof.
  exact (reserve_phase_survivors_reserved (full_batch [true; false])
           (full_batch_NoDup _) (full_batch_assigned _)).
Defined.


Lemma calculate_batch_num_steps_positive_witness :
  ∃ n, calculate_batch_num_steps two_budgets = Ok n ∧ 0 < n.
Proof.
  destruct (calculate_batch_num_steps_positive two_budgets)
    as (n & Hn & _ & Hpos); [discriminate|].
  exists n. split; [done|]. apply Hpos. cbn. lia.
Defined.

Lemma calculate_batch_num_steps_order_witness :
  calculate_batch_num_steps two_budgets
  = calculate_batch_num_steps two_budgets_swapped.
Proof.
  apply calculate_batch_num_steps_order; [reflexivity|]. apply perm_swap.
Defined.

Lemma handle_terminated_responses_none_done_witness :
  _handle_terminated_responses (Some none_done) (full_batch [])
  = Ok (full_batch []).
Proof.
  refine (proj1 (handle_terminated_responses_none_done none_done
                   (full_batch []) _)).
  by repeat constructor.
Defined.

Lemma handle_terminated_responses_missing_witness :
  _handle_terminated_responses
    (Some (none_done
           ++ ("ghost"%string, {| tokens := []; is_done := true |}) :: []))
    (full_batch [])
  = Raise (KeyError "ghost").
Proof.
  apply handle_terminated_responses_missing;
    [by repeat constructor|done|compute_done].
Defined.

Lemma r1_done_members :
  ∀ request_id response,
    (request_id, response) ∈ r1_done → is_done response = true →
    ∃ context cache_id,
      od_get (active_batch (full_batch [])) request_id = Some context
      ∧ cache_seq_id context = Some cache_id.
Proof.
  intros k response [Heq|[Heq|Hin%elem_of_nil]%elem_of_cons]%elem_of_cons
    Hdone; [| |done].
  - injection Heq as -> ->. by eexists _, _.
  - injection Heq as -> ->. discriminate Hdone.
Defined.

Lemma handle_terminated_responses_keeps_order_witness :
  ∃ s',
    _handle_terminated_responses (Some r1_done) (full_batch []) = Ok s'
    ∧ od_keys (active_batch s') = ["r2"%string].
Proof.
  assert (Hnd : NoDup (od_keys r1_done)) by compute_done.
  destruct (handle_terminated_responses_keeps_order r1_done (full_batch [])
              Hnd (full_batch_NoDup []) r1_done_members)
    as (s' & Hrun & Hact & _).
  exists s'. split; [done|]. by rewrite Hact.
Defined.

Lemma cycle_generator_once_witness :
  ∃ s' new,
    cycle (full_batch []) = Ok s'
    ∧ calls s' = calls (full_batch []) ++ new
    ∧ (count_calls is_next_token new ≤ 1)%nat.
Proof.
  destruct (cycle (full_batch [])) as [s'|e] eqn:Hrun;
    [|vm_compute in Hrun; discriminate Hrun].
  destruct (cycle_generator_once (full_batch []) s' Hrun)
    as (new & Hc & Hle & _).
  by exists s', new.
Defined.

Lemma cycle_without_decode_work_witness :
  ∃ s',
    cycle idle = Ok s'
    ∧ calls s' = [CallBeat]
    ∧ response_push_socket s' = []
    ∧ available_cache_indices s' = {[0; 1]}.
Proof.
  destruct (cycle_without_decode_work idle eq_refl)
    as (s' & Hrun & _ & Hc & Hr & _ & Hav & _); [by right|].
  by exists s'.
Defined.


Lemma schedule_batch_consistent_witness :
  ∃ s' frames,
    schedule_batch 10 ending_batch = Ok s'
    ∧ od_keys (active_batch s') = ["r2"%string]
    ∧ response_push_socket s' = [frames]
    ∧ cell frames 10 "r1" = Some STOP_STREAM.
Proof.
  pose (out := next_token (world ending_batch) (active_batch ending_batch) 10).
  assert (Hout : next_token (world ending_batch) (active_batch ending_batch)
                    10 = (out.1.1, out.1.2, out.2)) by reflexivity.
  destruct (schedule_batch_consistent 10 ending_batch _ _ _ Hout)
    as (s' & Hrun & Hact & Hmsg).
  { compute_done. }
  { compute_done. }
  { intros k response Hin Hdone. cbn in Hin.
    apply elem_of_cons in Hin as [Heq|Hin];
      [|apply elem_of_cons in Hin as [Heq|Hin%elem_of_nil]; [|done]].
    - injection Heq as -> ->. by eexists _, _.
    - injection Heq as -> ->. discriminate Hdone. }
  destruct Hmsg as (frames & Hrsp & Hcells); [done|].
  exists s', frames. split_and!; [done|by rewrite Hact|exact Hrsp|].
  destruct (Hcells "r1"%string _ ltac:(apply list_elem_of_here)) as [Hstop _].
  by apply Hstop.
Defined.

End ExtraExamples.

(** ** Forwarding over a transport that fails *)

Section FlakyExamples.
#[local] Existing Instance Scripted.carriers.
#[local] Existing Instance Flaky.collaborators.


End FlakyExamples.
